(** * A fixed-block memory pool (src/main.c), embedded in Rocq

    The pool carves a caller-supplied memory region into [num_blocks] blocks of
    [block_size] bytes and serves a request by reserving a contiguous run of
    blocks.  The side table [allocation_sizes] holds one [ssize_t] per block:
    [0] for a free block, [+N] for the head of a run of [N] blocks, [-1] for a
    continuation block.

    Integers are modelled as [Z] with the wrap-around of the C types written
    out: [size_t] is the 64-bit unsigned type and [ssize_t] the 64-bit signed
    type of an LP64 platform.  Pointers are addresses in the same 64-bit
    range, [NULL] being address [0], and pointer arithmetic is arithmetic on
    addresses.  A pool handle is [option mem_pool]: [None] is the null
    handle, [Some p] a handle to a structure whose contents are [p]; a
    function that changes the structure returns its new contents. *)

From Stdlib Require Import ZArith Lia Bool.
From stdpp Require Import base list.

Open Scope Z_scope.

(** ** Machine integers *)

Module Machine.

Definition size_modulus : Z := 2 ^ 64.
Definition ssize_half : Z := 2 ^ 63.

  (** A value of type [size_t] (also: a pointer seen as an address). *)
Definition is_size (z : Z) : Prop := 0 <= z < size_modulus.

  (** A value of type [ssize_t]. *)
Definition is_ssize (z : Z) : Prop := - ssize_half <= z < ssize_half.

  (** The result of an arithmetic operation carried out in [size_t]. *)
Definition wrap (z : Z) : Z := z mod size_modulus.

  (** The conversion [(ssize_t)x] of a [size_t] value. *)
Definition to_ssize (z : Z) : Z :=
    if z <? ssize_half then z else z - size_modulus.

  (** The conversion [(size_t)x] of an [ssize_t] value, which is also the
      usual arithmetic conversion applied when it meets a [size_t] operand. *)
Definition to_size (z : Z) : Z := z mod size_modulus.

Definition NULL : Z := 0.

Definition sizeof_ssize_t : Z := 8.

End Machine.

Import Machine.

(** ** The pool structure *)

(** [struct mem_pool].  [memory] is the address of the caller's region; the
    array behind [allocation_sizes] is the sequence of its entries. *)
Record mem_pool : Type := MemPool {
  memory : Z;
  block_size : Z;
  num_blocks : Z;
  free_blocks : Z;
  allocation_sizes : list Z
}.

(** [tbl[i]] for a [size_t] index.  C gives no value to a read outside the
    array; [entry] yields [0] there.  The search of a well-formed pool ends
    at an index inside the table (lemma [pool_alloc_cases]). *)
Definition entry (tbl : list Z) (i : Z) : Z := default 0 (tbl !! Z.to_nat i).

(** [tbl[i] = v].  A write outside the array leaves the sequence as it is. *)
Definition store (tbl : list Z) (i v : Z) : list Z := <[Z.to_nat i := v]> tbl.

(** The number of free blocks recorded in a table. *)
Fixpoint count_zero (tbl : list Z) : Z :=
  match tbl with
  | [] => 0
  | x :: tbl' => (if x =? 0 then 1 else 0) + count_zero tbl'
  end.

(** ** pool_init *)

(** What a call of [pool_init] comes to.  The table is requested with
    [malloc(num_blocks * sizeof(ssize_t))], a product taken in [size_t]; when
    it wraps, the buffer obtained is shorter than [num_blocks] entries and the
    zeroing loop of lines 44-46 runs past its end: [InitOverrun]. *)
Inductive init_result : Type :=
| InitNull
| InitPool (p : mem_pool)
| InitOverrun.

(** Lines 20-49.  [pool_malloc] and [table_malloc] tell whether the first
    and the second call of [malloc] return a buffer. *)
Definition pool_init (pool_malloc table_malloc : bool)
    (memory block_size num_blocks : Z) : init_result :=
  if (memory =? NULL) || (block_size =? 0) || (num_blocks =? 0) then InitNull
  else if negb pool_malloc then InitNull
  else if negb table_malloc then InitNull
  else if wrap (num_blocks * sizeof_ssize_t) <? num_blocks * sizeof_ssize_t
  then InitOverrun
  else InitPool {| memory := memory;
                   block_size := block_size;
                   num_blocks := num_blocks;
                   free_blocks := num_blocks;
                   allocation_sizes := replicate (Z.to_nat num_blocks) 0 |}.

(** ** pool_alloc *)

(** Line 62: [(size + pool->block_size - 1) / pool->block_size]. *)
Definition num_blocks_needed (p : mem_pool) (size : Z) : Z :=
  wrap (size + block_size p - 1) / block_size p.

(** Lines 71-77: the inner loop over [j], [n] iterations left. *)
Fixpoint can_allocate (tbl : list Z) (i j : Z) (n : nat) : bool :=
  match n with
  | O => true
  | S n' =>
      if entry tbl (wrap (i + j)) =? 0
      then can_allocate tbl i (j + 1) n'
      else false
  end.

(** The loops of lines 84-86 and 130-133: [tbl[base + k] = v] for [n]
    successive values of [k]. *)
Fixpoint write_run (v : Z) (tbl : list Z) (base k : Z) (n : nat) : list Z :=
  match n with
  | O => tbl
  | S n' => write_run v (store tbl (wrap (base + k)) v) base (k + 1) n'
  end.

(** Lines 65-94: the search for the first block index whose run is free.
    [fuel] bounds the number of iterations of the outer loop; the loop ends
    by its own condition within [num_blocks + 1] of them (lemma
    [find_run_fuel]). *)
Fixpoint find_run (p : mem_pool) (needed i : Z) (fuel : nat) : option Z :=
  match fuel with
  | O => None
  | S fuel' =>
      if wrap (i + needed) <=? num_blocks p then
        if negb (entry (allocation_sizes p) i =? 0)
        then find_run p needed (wrap (i + 1)) fuel'
        else if can_allocate (allocation_sizes p) i 0 (Z.to_nat needed)
        then Some i
        else find_run p needed (wrap (i + 1)) fuel'
      else None
  end.

(** Lines 52-98.  [pool_alloc] returns the pointer, [NULL] when it fails,
    and the pool as the call leaves it. *)
Definition pool_alloc (pool : option mem_pool) (size : Z)
    : Z * option mem_pool :=
  match pool with
  | None => (NULL, pool)
  | Some p =>
      if size =? 0 then (NULL, pool)
      else if wrap (block_size p * free_blocks p) <? size then (NULL, pool)
      else
        let needed := num_blocks_needed p size in
        match find_run p needed 0 (S (Z.to_nat (num_blocks p))) with
        | Some i =>
            let tbl := store (allocation_sizes p) i (to_ssize needed) in
            let tbl := write_run (-1) tbl i 1 (Z.to_nat (needed - 1)) in
            (wrap (memory p + wrap (i * block_size p)),
             Some {| memory := memory p;
                     block_size := block_size p;
                     num_blocks := num_blocks p;
                     free_blocks := wrap (free_blocks p - needed);
                     allocation_sizes := tbl |})
        | None => (NULL, pool)
        end
  end.

(** ** pool_free *)

(** Lines 101-137.  [pool_free] returns nothing; the result is the pool as
    the call leaves it. *)
Definition pool_free (pool : option mem_pool) (ptr : Z) : option mem_pool :=
  match pool with
  | None => pool
  | Some p =>
      if ptr =? NULL then pool
      else
        let offset := wrap (ptr - memory p) in
        if negb (offset mod block_size p =? 0) then pool
        else
          let block_index := offset / block_size p in
          if num_blocks p <=? block_index then pool
          else
            let num_blocks_alloc := entry (allocation_sizes p) block_index in
            if num_blocks_alloc <=? 0 then pool
            else if num_blocks p <? wrap (block_index + to_size num_blocks_alloc)
            then pool
            else
              Some {| memory := memory p;
                      block_size := block_size p;
                      num_blocks := num_blocks p;
                      free_blocks :=
                        wrap (free_blocks p + to_size num_blocks_alloc);
                      allocation_sizes :=
                        write_run 0 (allocation_sizes p) block_index 0
                          (Z.to_nat (to_size num_blocks_alloc)) |}
  end.

(** ** Well-formed pools *)

(** What the C types and [pool_init] fix about a pool: every field has a
    value of its type, the memory pointer is not null, sizes are positive, the
    table is an array of [num_blocks] entries that [malloc] could be asked
    for, and every entry is an [ssize_t]. *)
Definition pool_shape (p : mem_pool) : Prop :=
  is_size (memory p) /\ memory p <> NULL
  /\ is_size (block_size p) /\ 0 < block_size p
  /\ 0 < num_blocks p /\ num_blocks p * sizeof_ssize_t < size_modulus
  /\ is_size (free_blocks p)
  /\ Z.of_nat (length (allocation_sizes p)) = num_blocks p
  /\ Forall is_ssize (allocation_sizes p).

(** The invariant of the allocation table: a head of value [n] at index [i]
    is followed by [-1] at [i+1 .. i+n-1] and its run ends inside the table;
    every entry is [0], [-1] or a positive head; [free_blocks] counts the
    zero entries. *)
Definition table_invariant (p : mem_pool) : Prop :=
  (forall i n, 0 <= i < num_blocks p ->
     entry (allocation_sizes p) i = n -> 0 < n ->
     i + n <= num_blocks p
     /\ forall k, i + 1 <= k <= i + n - 1 -> entry (allocation_sizes p) k = -1)
  /\ (forall i, 0 <= i < num_blocks p ->
        entry (allocation_sizes p) i = 0
        \/ entry (allocation_sizes p) i = -1
        \/ 0 < entry (allocation_sizes p) i)
  /\ free_blocks p = count_zero (allocation_sizes p).

(** The caller's side of [pool_init]: [memory] is a region of at least
    [block_size * num_blocks] bytes, so the region ends inside the address
    space. *)
Definition region_ok (p : mem_pool) : Prop :=
  memory p + block_size p * num_blocks p <= size_modulus.

(** A valid pool: well shaped, its table invariant holds, and it manages a
    memory region as [pool_init] expects it. *)
Definition valid_pool (p : mem_pool) : Prop :=
  pool_shape p /\ table_invariant p /\ region_ok p.

(** The run of [n] blocks starting at block [i] lies in the table and is
    free. *)
Definition run_fits (p : mem_pool) (n i : Z) : Prop :=
  0 <= i /\ i + n <= num_blocks p
  /\ forall k, i <= k < i + n -> entry (allocation_sizes p) k = 0.

(** [size / b] rounded up, in unbounded integers. *)
Definition ceil_div (size b : Z) : Z := (size + b - 1) / b.

(** The states a pool goes through: created by [pool_init], then changed by
    calls of [pool_alloc] and [pool_free] with arguments of their C types. *)
Inductive reachable : mem_pool -> Prop :=
| reach_init pool_malloc table_malloc mem bs nb p :
    is_size mem -> is_size bs -> is_size nb ->
    pool_init pool_malloc table_malloc mem bs nb = InitPool p ->
    reachable p
| reach_alloc p size ptr p' :
    reachable p -> is_size size ->
    pool_alloc (Some p) size = (ptr, Some p') ->
    reachable p'
| reach_free p ptr p' :
    reachable p -> is_size ptr ->
    pool_free (Some p) ptr = Some p' ->
    reachable p'.

(** The test the search makes at block [i] (lines 67-77): the block is free
    and so are the [needed] blocks from it on. *)
Definition accepts (p : mem_pool) (needed i : Z) : Prop :=
  entry (allocation_sizes p) i = 0
  /\ forall k, 0 <= k < needed -> entry (allocation_sizes p) (i + k) = 0.

(** The table after a run of [needed] blocks is marked at block [i]
    (lines 82-86). *)
Definition mark_run (tbl : list Z) (i needed : Z) : list Z :=
  write_run (-1) (store tbl i (to_ssize needed)) i 1 (Z.to_nat (needed - 1)).

(** The pool after such a run is reserved (lines 82-89). *)
Definition reserve (p : mem_pool) (i needed : Z) : mem_pool :=
  {| memory := memory p;
     block_size := block_size p;
     num_blocks := num_blocks p;
     free_blocks := wrap (free_blocks p - needed);
     allocation_sizes := mark_run (allocation_sizes p) i needed |}.

(** The pool after the run of [n] blocks headed at [block_index] is given
    back (lines 130-136). *)
Definition release (p : mem_pool) (block_index n : Z) : mem_pool :=
  {| memory := memory p;
     block_size := block_size p;
     num_blocks := num_blocks p;
     free_blocks := wrap (free_blocks p + to_size n);
     allocation_sizes :=
       write_run 0 (allocation_sizes p) block_index 0 (Z.to_nat (to_size n)) |}.

(** ** Scenarios *)

(** A pool of eight blocks of sixteen bytes at address 4096, with
    [free] free blocks and the table [tbl]. *)
Definition frag_state (free : Z) (tbl : list Z) : mem_pool :=
  {| memory := 4096; block_size := 16; num_blocks := 8;
     free_blocks := free; allocation_sizes := tbl |}.

(** Three runs of 2, 3 and 3 blocks were reserved; the first and the third
    were given back. *)
Definition frag_pool : mem_pool := frag_state 5 [0; 0; 3; -1; -1; 0; 0; 0].

(** The same pool with the length of its one run overwritten. *)
Definition corrupt_pool : mem_pool := frag_state 5 [0; 0; 9; -1; -1; 0; 0; 0].

(** A pool of one block of [2^63 + 1] bytes at address 4096. *)
Definition huge_pool : mem_pool :=
  {| memory := 4096; block_size := 2 ^ 63 + 1; num_blocks := 1;
     free_blocks := 1; allocation_sizes := [0] |}.

(** The pool of the demonstration driver: 320 blocks of one byte. *)
Definition demo_pool : mem_pool :=
  {| memory := 4096; block_size := 1; num_blocks := 320; free_blocks := 320;
     allocation_sizes := replicate 320%nat 0 |}.

(** ** The blocks held by live runs *)

(** The sum of the run lengths that the heads of a table record. *)
Fixpoint sum_heads (tbl : list Z) : Z :=
  match tbl with
  | [] => 0
  | x :: tbl' => Z.max x 0 + sum_heads tbl'
  end.

(** Every block is free or belongs to a live run: the free blocks and the
    run lengths add up to the length of the table. *)
Definition accounted (tbl : list Z) : Prop :=
  count_zero tbl + sum_heads tbl = Z.of_nat (length tbl).

(** Every continuation block lies in the run of a head below it. *)
Definition continuations_owned (tbl : list Z) : Prop :=
  forall k, 0 <= k < Z.of_nat (length tbl) -> entry tbl k = -1 ->
            exists i, 0 <= i < k /\ k < i + entry tbl i.

(** ** malloc and free *)

(** The C heap as [pool_init], [pool_destroy] and [main] use it: the buffers
    that are live, each with its address and the size it was asked with; the
    pointers the calls of [malloc] to come will return ([NULL] for a call
    that fails, as does every call once the list is used up); and whether
    [free] was ever given a pointer that is not a live buffer. *)
Record heap : Type := Heap {
  live : list (Z * Z);
  supply : list Z;
  bad_free : bool
}.

Definition malloc (size : Z) (h : heap) : Z * heap :=
  match supply h with
  | [] => (NULL, h)
  | a :: rest =>
      (a, {| live := if a =? NULL then live h else (a, size) :: live h;
             supply := rest;
             bad_free := bad_free h |})
  end.

(** The live buffers without the first one at address [ptr], if there is
    one. *)
Fixpoint unlink (ptr : Z) (blocks : list (Z * Z)) : option (list (Z * Z)) :=
  match blocks with
  | [] => None
  | b :: rest =>
      if fst b =? ptr then Some rest
      else match unlink ptr rest with
           | Some rest' => Some (b :: rest')
           | None => None
           end
  end.

(** [free(ptr)]: nothing for [NULL]; a pointer that is no live buffer is
    recorded in [bad_free]. *)
Definition free (ptr : Z) (h : heap) : heap :=
  if ptr =? NULL then h
  else match unlink ptr (live h) with
       | Some blocks =>
           {| live := blocks; supply := supply h; bad_free := bad_free h |}
       | None =>
           {| live := live h; supply := supply h; bad_free := true |}
       end.

(** [sizeof(struct mem_pool)]: five fields of eight bytes. *)
Definition sizeof_mem_pool : Z := 40.

(** ** pool_init and pool_destroy on the heap *)

(** A pool in the heap: the address [self] of its control structure, the
    address [table] of the array behind [allocation_sizes], and the contents
    of the structure. *)
Record pool_ref : Type := PoolRef {
  self : Z;
  table : Z;
  contents : mem_pool
}.

Inductive init_at_result : Type :=
| AtNull
| AtPool (r : pool_ref)
| AtOverrun.

(** Lines 20-49 with the two calls of [malloc] and the [free] of line 40
    carried out on the heap. *)
Definition pool_init_at (memory block_size num_blocks : Z) (h : heap)
    : init_at_result * heap :=
  if (memory =? NULL) || (block_size =? 0) || (num_blocks =? 0)
  then (AtNull, h)
  else
    let (pool, h1) := malloc sizeof_mem_pool h in
    if pool =? NULL then (AtNull, h1)
    else
      let (tbl, h2) := malloc (wrap (num_blocks * sizeof_ssize_t)) h1 in
      if tbl =? NULL then (AtNull, free pool h2)
      else if wrap (num_blocks * sizeof_ssize_t) <? num_blocks * sizeof_ssize_t
      then (AtOverrun, h2)
      else (AtPool {| self := pool;
                      table := tbl;
                      contents :=
                        {| memory := memory;
                           block_size := block_size;
                           num_blocks := num_blocks;
                           free_blocks := num_blocks;
                           allocation_sizes :=
                             replicate (Z.to_nat num_blocks) 0 |} |},
            h2).

(** The outcome without the addresses. *)
Definition forget (r : init_at_result) : init_result :=
  match r with
  | AtNull => InitNull
  | AtPool r => InitPool (contents r)
  | AtOverrun => InitOverrun
  end.

(** Whether the [n]-th call of [malloc] to come returns a buffer. *)
Definition malloc_succeeds (n : nat) (h : heap) : bool :=
  match supply h !! n with
  | Some a => negb (a =? NULL)
  | None => false
  end.

(** Lines 140-150. *)
Definition pool_destroy (pool : option pool_ref) (h : heap) : heap :=
  match pool with
  | None => h
  | Some r => free (self r) (free (table r) h)
  end.

(** ** main *)

(** What [main] prints. *)
Inductive event : Type :=
| FailedFirst
| FailedSecond
| AllocatedBlock1 (block : Z)
| AllocatedBlock2 (block : Z).

(** Lines 152-187.  [memory] is the address of the array of 320 bytes on the
    stack.  The result is the value [main] returns, what it printed, and the
    heap it leaves; there is none when a zeroing loop of [pool_init] runs
    over the end of its table. *)
Definition main (memory : Z) (h : heap) : option (Z * list event * heap) :=
  match pool_init_at memory 1 320 h with
  | (AtOverrun, _) => None
  | (AtNull, h1) => Some (-1, [FailedFirst], h1)
  | (AtPool pool, h1) =>
      let (block1, st) := pool_alloc (Some (contents pool)) 64 in
      let st := pool_free st block1 in
      let h2 := pool_destroy (Some pool) h1 in
      let (memory2, h3) := malloc (wrap (1 * 320)) h2 in
      match pool_init_at memory2 1 320 h3 with
      | (AtOverrun, _) => None
      | (AtNull, h4) =>
          Some (-1, [AllocatedBlock1 block1; FailedSecond], free memory2 h4)
      | (AtPool pool2, h4) =>
          let (block2, st2) := pool_alloc (Some (contents pool2)) 96 in
          let st2 := pool_free st2 block2 in
          let h5 := pool_destroy (Some pool2) h4 in
          Some (0, [AllocatedBlock1 block1; AllocatedBlock2 block2],
                free memory2 h5)
      end
  end.

(** The heap of a program that has not called [malloc] yet. *)
Definition fresh_heap (addresses : list Z) : heap :=
  {| live := []; supply := addresses; bad_free := false |}.

(** * Scenarios of the demonstration driver *)

Example demo_init : pool_init true true 4096 1 320 = InitPool demo_pool.
Proof. reflexivity. Qed.

Example demo_alloc_64 :
  exists p', pool_alloc (Some demo_pool) 64 = (4096, Some p')
             /\ free_blocks p' = 256
             /\ allocation_sizes p'
                = 64 :: replicate 63%nat (-1) ++ replicate 256%nat 0
             /\ pool_free (Some p') 4096 = Some demo_pool.
Proof. eexists. repeat split; vm_compute; reflexivity. Qed.

Example demo_alloc_96 :
  fst (pool_alloc (Some demo_pool) 96) = 4096.
Proof. vm_compute. reflexivity. Qed.

(** * Arithmetic of the machine types *)

(** Case analysis on the comparisons of a goal and its hypotheses. *)
Ltac zcases :=
  repeat match goal with
    | |- context [Z.eqb ?a ?b] => destruct (Z.eqb_spec a b)
    | |- context [Z.ltb ?a ?b] => destruct (Z.ltb_spec a b)
    | |- context [Z.leb ?a ?b] => destruct (Z.leb_spec a b)
    | H : context [Z.eqb ?a ?b] |- _ => destruct (Z.eqb_spec a b)
    | H : context [Z.ltb ?a ?b] |- _ => destruct (Z.ltb_spec a b)
    | H : context [Z.leb ?a ?b] |- _ => destruct (Z.leb_spec a b)
    end;
  simpl andb in *; cbv iota in *.

Section MachineFacts.

Lemma wrap_small z : is_size z -> wrap z = z.
Proof. unfold is_size, wrap. intros Hz. now apply Z.mod_small. Qed.

Lemma wrap_is_size z : is_size (wrap z).
Proof. unfold is_size, wrap, size_modulus. apply Z.mod_pos_bound. lia. Qed.

Lemma wrap_le z : 0 <= z -> wrap z <= z.
Proof. unfold wrap, size_modulus. intros Hz. apply Z.mod_le; lia. Qed.

Lemma to_ssize_small z : 0 <= z < ssize_half -> to_ssize z = z.
Proof.
  unfold to_ssize. intros Hz.
  destruct (Z.ltb_spec z ssize_half); [reflexivity | lia].
Qed.

Lemma to_ssize_is_ssize z : is_size z -> is_ssize (to_ssize z).
Proof.
  unfold to_ssize, is_size, is_ssize, size_modulus, ssize_half. intros Hz.
  destruct (Z.ltb_spec z (2 ^ 63)); lia.
Qed.

Lemma to_size_small z : is_size z -> to_size z = z.
Proof. exact (wrap_small z). Qed.

End MachineFacts.

(** * The table as an array *)

Section Table.

Implicit Types (tbl : list Z) (i j k v : Z) (n : nat).

Lemma entry_lookup tbl i :
  0 <= i < Z.of_nat (length tbl) -> tbl !! Z.to_nat i = Some (entry tbl i).
Proof.
  intros Hi. unfold entry.
  destruct (tbl !! Z.to_nat i) as [x|] eqn:E; [reflexivity|].
  apply lookup_ge_None in E. lia.
Qed.

Lemma entry_outside tbl i : Z.of_nat (length tbl) <= i -> entry tbl i = 0.
Proof.
  intros Hi. unfold entry.
  rewrite (proj2 (lookup_ge_None tbl (Z.to_nat i))); [reflexivity | lia].
Qed.

Lemma length_store tbl i v : length (store tbl i v) = length tbl.
Proof. apply length_insert. Qed.

Lemma entry_store_eq tbl i v :
  0 <= i < Z.of_nat (length tbl) -> entry (store tbl i v) i = v.
Proof.
  intros Hi. unfold entry, store.
  rewrite list_lookup_insert_eq; [reflexivity | lia].
Qed.

Lemma entry_store_ne tbl i j v :
  0 <= i -> 0 <= j -> i <> j -> entry (store tbl i v) j = entry tbl j.
Proof.
  intros Hi Hj Hne. unfold entry, store.
  rewrite list_lookup_insert_ne; [reflexivity | lia].
Qed.

Lemma store_same tbl i : store tbl i (entry tbl i) = tbl.
Proof.
  unfold store.
  destruct (Z_lt_ge_dec i 0) as [Hneg | Hpos].
  - replace (Z.to_nat i) with (Z.to_nat 0) by lia.
    replace (entry tbl i) with (entry tbl 0)
      by (unfold entry; f_equal; f_equal; lia).
    destruct tbl as [|x tbl]; reflexivity.
  - destruct (Z_lt_ge_dec i (Z.of_nat (length tbl))) as [Hin | Hout].
    + apply list_insert_id, entry_lookup. lia.
    + apply list_insert_ge. lia.
Qed.

(** Two tables with the same entries are the same table. *)
Lemma table_ext tbl1 tbl2 :
  length tbl1 = length tbl2 ->
  (forall i, 0 <= i < Z.of_nat (length tbl1) -> entry tbl1 i = entry tbl2 i) ->
  tbl1 = tbl2.
Proof.
  intros Hlen Hent. apply list_eq. intros n.
  destruct (Nat.lt_ge_cases n (length tbl1)) as [Hn | Hn].
  - specialize (Hent (Z.of_nat n)).
    rewrite <- (Nat2Z.id n).
    rewrite !entry_lookup by lia. f_equal. apply Hent. lia.
  - rewrite (proj2 (lookup_ge_None tbl1 n)) by lia.
    rewrite (proj2 (lookup_ge_None tbl2 n)) by lia. reflexivity.
Qed.

Lemma entry_replicate n i : entry (replicate n 0) i = 0.
Proof.
  unfold entry.
  destruct (replicate n 0 !! Z.to_nat i) as [x|] eqn:E; [|reflexivity].
  apply lookup_replicate in E. simpl. tauto.
Qed.

Lemma count_zero_bounds tbl : 0 <= count_zero tbl <= Z.of_nat (length tbl).
Proof.
  induction tbl as [|x tbl IH]; simpl; [lia|].
  destruct (x =? 0); lia.
Qed.

Lemma count_zero_replicate n : count_zero (replicate n 0) = Z.of_nat n.
Proof. induction n as [|n IH]; simpl; lia. Qed.

(** A single write moves the count by the change at that index. *)
Lemma count_zero_store tbl i v :
  0 <= i < Z.of_nat (length tbl) ->
  count_zero (store tbl i v)
  = count_zero tbl - (if entry tbl i =? 0 then 1 else 0)
    + (if v =? 0 then 1 else 0).
Proof.
  unfold store, entry. intros Hi.
  assert (Hn : (Z.to_nat i < length tbl)%nat) by lia.
  clear Hi. revert Hn. generalize (Z.to_nat i) as m.
  induction tbl as [|x tbl IH]; intros m Hm; simpl in Hm; [lia|].
  destruct m as [|m]; simpl.
  - lia.
  - rewrite IH by lia. lia.
Qed.

(** A table without a used block is zero everywhere. *)
Lemma count_zero_full tbl i :
  count_zero tbl = Z.of_nat (length tbl) -> entry tbl i = 0.
Proof.
  intros Hfull. unfold entry.
  generalize (Z.to_nat i) as m. clear i.
  induction tbl as [|x tbl IH]; intros m; [reflexivity|].
  simpl in Hfull. pose proof (count_zero_bounds tbl) as Hb.
  destruct (Z.eqb_spec x 0) as [-> | Hx]; [|lia].
  destruct m as [|m]; simpl; [reflexivity|].
  apply IH. lia.
Qed.

End Table.

(** * The loops over a run *)

Section Runs.

Implicit Types (tbl : list Z) (i j k v base : Z) (n : nat).

Lemma length_write_run v tbl base k n :
  length (write_run v tbl base k n) = length tbl.
Proof.
  revert tbl k. induction n as [|n IH]; intros tbl k; simpl; [reflexivity|].
  rewrite IH. apply length_store.
Qed.

Lemma Forall_write_run (P : Z -> Prop) v tbl base k n :
  P v -> Forall P tbl -> Forall P (write_run v tbl base k n).
Proof.
  intros Hv. revert tbl k.
  induction n as [|n IH]; intros tbl k Htbl; simpl; [exact Htbl|].
  apply IH. unfold store. now apply Forall_insert.
Qed.

(** Inside the table and the address range, [write_run] sets the entries
    [base + k .. base + k + n - 1] to [v] and keeps the others. *)
Lemma entry_write_run v tbl base k n j :
  0 <= base -> 0 <= k ->
  base + k + Z.of_nat n <= Z.of_nat (length tbl) ->
  Z.of_nat (length tbl) <= size_modulus ->
  0 <= j ->
  entry (write_run v tbl base k n) j
  = if (base + k <=? j) && (j <? base + k + Z.of_nat n) then v
    else entry tbl j.
Proof.
  intros Hbase. revert tbl k.
  induction n as [|n IH]; intros tbl k Hk Hfit Hlen Hj; simpl write_run.
  - destruct (Z.leb_spec (base + k) j), (Z.ltb_spec j (base + k + Z.of_nat 0));
      simpl; try reflexivity; lia.
  - rewrite wrap_small by (unfold is_size; lia).
    rewrite IH by (rewrite ?length_store; lia).
    destruct (Z.eq_dec j (base + k)) as [-> | Hne].
    + rewrite entry_store_eq by lia.
      destruct (Z.leb_spec (base + (k + 1)) (base + k)),
               (Z.leb_spec (base + k) (base + k)),
               (Z.ltb_spec (base + k) (base + k + Z.of_nat (S n)));
        simpl; try reflexivity; lia.
    + rewrite entry_store_ne by lia.
      destruct (Z.leb_spec (base + (k + 1)) j),
               (Z.leb_spec (base + k) j),
               (Z.ltb_spec j (base + (k + 1) + Z.of_nat n)),
               (Z.ltb_spec j (base + k + Z.of_nat (S n)));
        simpl; try reflexivity; lia.
Qed.

(** When the entries of the run are all zero ([was_free = true]) or all
    non-zero ([was_free = false]), [write_run] moves the count of zero
    entries by the length of the run. *)
Lemma count_zero_write_run v tbl base k n (was_free : bool) :
  0 <= base -> 0 <= k ->
  base + k + Z.of_nat n <= Z.of_nat (length tbl) ->
  Z.of_nat (length tbl) <= size_modulus ->
  (forall j, base + k <= j < base + k + Z.of_nat n ->
     (entry tbl j =? 0) = was_free) ->
  count_zero (write_run v tbl base k n)
  = count_zero tbl
    + Z.of_nat n * ((if v =? 0 then 1 else 0) - (if was_free then 1 else 0)).
Proof.
  intros Hbase. revert tbl k.
  induction n as [|n IH]; intros tbl k Hk Hfit Hlen Hrun; simpl write_run.
  - lia.
  - rewrite wrap_small by (unfold is_size; lia).
    rewrite IH; rewrite ?length_store; try lia.
    + rewrite count_zero_store by lia.
      rewrite (Hrun (base + k)) by lia.
      destruct (v =? 0), was_free; lia.
    + intros j Hj. rewrite entry_store_ne by lia. apply Hrun. lia.
Qed.

(** The inner loop answers [true] exactly when the [n] entries from
    [i + j] on are zero. *)
Lemma can_allocate_spec tbl i j n :
  0 <= i -> 0 <= j -> i + j + Z.of_nat n <= size_modulus ->
  can_allocate tbl i j n = true
  <-> forall k, j <= k < j + Z.of_nat n -> entry tbl (i + k) = 0.
Proof.
  intros Hi. revert j.
  induction n as [|n IH]; intros j Hj Hfit; simpl can_allocate.
  - split; [intros _ k Hk; lia | reflexivity].
  - rewrite wrap_small by (unfold is_size; lia).
    destruct (Z.eqb_spec (entry tbl (i + j)) 0) as [Hz | Hnz].
    + rewrite IH by lia. split; intros H k Hk.
      * destruct (Z.eq_dec k j) as [-> | Hne]; [exact Hz | apply H; lia].
      * apply H. lia.
    + split; [discriminate|]. intros H. exfalso. apply Hnz, H. lia.
Qed.

Lemma count_zero_positive tbl :
  0 < count_zero tbl ->
  exists z, 0 <= z < Z.of_nat (length tbl) /\ entry tbl z = 0.
Proof.
  induction tbl as [|x tbl IH]; simpl; [lia|]. intros Hpos.
  destruct (Z.eqb_spec x 0) as [-> | Hx].
  - exists 0. split; [lia | reflexivity].
  - destruct IH as [z [Hz Hez]]; [lia|].
    exists (z + 1). split; [lia|].
    unfold entry in *. replace (Z.to_nat (z + 1)) with (S (Z.to_nat z)) by lia.
    exact Hez.
Qed.

End Runs.

(** * The first-fit search *)

Section Search.

Variable p : mem_pool.
Variable needed : Z.
Hypothesis table_fits : num_blocks p * sizeof_ssize_t < size_modulus.

(** With enough fuel to reach the last index whose run still fits, the
    search returns the first index it accepts, or nothing when it accepts
    none. *)
Lemma find_run_spec fuel i :
  0 <= needed <= num_blocks p ->
  0 <= i <= num_blocks p + 1 ->
  num_blocks p - needed < i + Z.of_nat fuel ->
  match find_run p needed i fuel with
  | Some r =>
      i <= r /\ r + needed <= num_blocks p /\ accepts p needed r
      /\ forall i', i <= i' < r -> ~ accepts p needed i'
  | None =>
      forall i', i <= i' -> i' + needed <= num_blocks p ->
                 ~ accepts p needed i'
  end.
Proof.
  intros Hneeded. unfold sizeof_ssize_t, size_modulus in table_fits.
  revert i. induction fuel as [|fuel' IH]; intros i Hi Hfuel; simpl find_run.
  - intros i' Hi' Hfit. lia.
  - rewrite (wrap_small (i + needed)) by (unfold is_size, size_modulus; lia).
    destruct (Z.leb_spec (i + needed) (num_blocks p)) as [Hin | Hout].
    + rewrite (wrap_small (i + 1)) by (unfold is_size, size_modulus; lia).
      assert (Hnext :
        ~ accepts p needed i ->
        match find_run p needed (i + 1) fuel' with
        | Some r =>
            i <= r /\ r + needed <= num_blocks p /\ accepts p needed r
            /\ forall i', i <= i' < r -> ~ accepts p needed i'
        | None =>
            forall i', i <= i' -> i' + needed <= num_blocks p ->
                       ~ accepts p needed i'
        end).
      { intros Hrej. specialize (IH (i + 1)).
        destruct (find_run p needed (i + 1) fuel') as [r|].
        - destruct IH as (Hr & Hfit & Hacc & Hmin); [lia | lia |].
          repeat split; [lia | exact Hfit | apply Hacc | apply Hacc |].
          intros i' Hi'. destruct (Z.eq_dec i' i) as [-> | Hne];
            [exact Hrej | apply Hmin; lia].
        - intros i' Hi' Hfit. destruct (Z.eq_dec i' i) as [-> | Hne];
            [exact Hrej | apply IH; lia]. }
      assert (Hspec :
        can_allocate (allocation_sizes p) i 0 (Z.to_nat needed) = true
        <-> forall k, 0 <= k < 0 + Z.of_nat (Z.to_nat needed) ->
                      entry (allocation_sizes p) (i + k) = 0)
        by (apply can_allocate_spec; [lia | lia | unfold size_modulus; lia]).
      destruct (Z.eqb_spec (entry (allocation_sizes p) i) 0) as [Hz | Hnz];
        simpl negb; cbv iota.
      * destruct (can_allocate (allocation_sizes p) i 0 (Z.to_nat needed))
          eqn:Hcan.
        -- repeat split; [lia | exact Hin | exact Hz | | intros i' Hi'; lia].
           intros k Hk. apply Hspec; [reflexivity | lia].
        -- apply Hnext. intros [_ Hrun].
           assert (Htrue : false = true)
             by (apply Hspec; intros k Hk; apply Hrun; lia).
           discriminate.
      * apply Hnext. intros [Hz _]. contradiction.
    + intros i' Hi' Hfit. lia.
Qed.

(** A request for more blocks than the pool has leaves the loop at once. *)
Lemma find_run_too_long fuel :
  is_size needed -> num_blocks p < needed -> find_run p needed 0 fuel = None.
Proof.
  intros Hsize Hlong. destruct fuel as [|fuel']; simpl; [reflexivity|].
  rewrite (wrap_small (0 + needed)) by (simpl; exact Hsize).
  destruct (Z.leb_spec (0 + needed) (num_blocks p)); [lia | reflexivity].
Qed.


End Search.

(** * Marking a run *)

Section Marking.

Implicit Types (tbl : list Z) (i j r needed : Z).

Lemma length_mark_run tbl r needed :
  length (mark_run tbl r needed) = length tbl.
Proof. unfold mark_run. now rewrite length_write_run, length_store. Qed.

Lemma Forall_mark_run tbl r needed :
  is_size needed -> Forall is_ssize tbl ->
  Forall is_ssize (mark_run tbl r needed).
Proof.
  intros Hn Htbl. unfold mark_run. apply Forall_write_run.
  - unfold is_ssize, ssize_half. lia.
  - unfold store. apply Forall_insert; [exact Htbl |].
    now apply to_ssize_is_ssize.
Qed.

(** A request for no block at all writes [0] over the [0] it found. *)
Lemma mark_run_nothing tbl r : entry tbl r = 0 -> mark_run tbl r 0 = tbl.
Proof.
  intros Hr. unfold mark_run. simpl.
  change (to_ssize 0) with 0. rewrite <- Hr at 1. apply store_same.
Qed.

(** The entries of a table after a run of at least one block is marked. *)
Lemma entry_mark_run tbl r needed j :
  1 <= needed < ssize_half -> 0 <= r ->
  r + needed <= Z.of_nat (length tbl) ->
  Z.of_nat (length tbl) <= size_modulus ->
  0 <= j ->
  entry (mark_run tbl r needed) j
  = if j =? r then needed
    else if (r <? j) && (j <? r + needed) then -1
    else entry tbl j.
Proof.
  intros Hn Hr Hfit Hlen Hj. unfold mark_run.
  rewrite entry_write_run by (rewrite ?length_store; lia).
  rewrite to_ssize_small by lia.
  destruct (Z.eqb_spec j r) as [-> | Hne].
  - rewrite entry_store_eq by lia.
    destruct (Z.leb_spec (r + 1) r); [lia | reflexivity].
  - rewrite entry_store_ne by lia.
    replace (r + 1 + Z.of_nat (Z.to_nat (needed - 1))) with (r + needed) by lia.
    destruct (Z.leb_spec (r + 1) j), (Z.ltb_spec r j),
             (Z.ltb_spec j (r + needed)); simpl; try reflexivity; lia.
Qed.

(** Marking a free run takes its blocks out of the count of free blocks. *)
Lemma count_zero_mark_run tbl r needed :
  1 <= needed < ssize_half -> 0 <= r ->
  r + needed <= Z.of_nat (length tbl) ->
  Z.of_nat (length tbl) <= size_modulus ->
  (forall k, 0 <= k < needed -> entry tbl (r + k) = 0) ->
  count_zero (mark_run tbl r needed) = count_zero tbl - needed.
Proof.
  intros Hn Hr Hfit Hlen Hfree. unfold mark_run.
  rewrite (count_zero_write_run _ _ _ _ _ true);
    rewrite ?length_store; try lia.
  - rewrite count_zero_store by lia.
    rewrite to_ssize_small by lia.
    replace (entry tbl r) with 0
      by (symmetry; replace r with (r + 0) by lia; apply Hfree; lia).
    simpl. destruct (Z.eqb_spec needed 0); lia.
  - intros j Hj. rewrite entry_store_ne by lia.
    replace j with (r + (j - r)) by lia. rewrite Hfree by lia. reflexivity.
Qed.

Lemma reserve_nothing p r :
  is_size (free_blocks p) -> entry (allocation_sizes p) r = 0 ->
  reserve p r 0 = p.
Proof.
  intros HF Hr. unfold reserve.
  rewrite mark_run_nothing by exact Hr.
  rewrite Z.sub_0_r, wrap_small by exact HF.
  destruct p; reflexivity.
Qed.

End Marking.

(** * The outcomes of pool_alloc *)

Section Alloc.

Variable p : mem_pool.
Hypothesis shape : pool_shape p.
Hypothesis inv : table_invariant p.

Lemma num_blocks_needed_is_size size : is_size (num_blocks_needed p size).
Proof.
  destruct shape as (_ & _ & HB & HB0 & _).
  unfold num_blocks_needed.
  pose proof (wrap_is_size (size + block_size p - 1)) as Hw.
  unfold is_size in *. split.
  - apply Z.div_pos; lia.
  - apply Z.le_lt_trans with (wrap (size + block_size p - 1)); [|lia].
    apply Z.div_le_upper_bound; nia.
Qed.

(** A request that passes the capacity test finds a free block in the
    table. *)
Lemma capacity_gives_free_block size :
  0 < size <= wrap (block_size p * free_blocks p) ->
  exists z, 0 <= z < num_blocks p /\ entry (allocation_sizes p) z = 0.
Proof.
  intros Hsize.
  destruct shape as (_ & _ & _ & _ & _ & _ & HF & Hlen & _).
  destruct inv as (_ & _ & Hcount).
  rewrite <- Hlen. apply count_zero_positive. rewrite <- Hcount.
  destruct (Z.eq_dec (free_blocks p) 0) as [H0 | H0].
  - rewrite H0, Z.mul_0_r in Hsize. change (wrap 0) with 0 in Hsize. lia.
  - unfold is_size in HF. lia.
Qed.

(** Either [pool_alloc] returns [NULL] and leaves the pool as it is -- for a
    request of size zero, one beyond the capacity, or one no index is
    accepted for -- or it reserves the run at the first accepted index. *)
Lemma pool_alloc_cases size :
  is_size size ->
  let needed := num_blocks_needed p size in
  (pool_alloc (Some p) size = (NULL, Some p)
   /\ (size = 0
       \/ wrap (block_size p * free_blocks p) < size
       \/ (0 < size <= wrap (block_size p * free_blocks p)
           /\ forall i, 0 <= i -> i + needed <= num_blocks p ->
                        ~ accepts p needed i)))
  \/ (exists r,
        0 < size <= wrap (block_size p * free_blocks p)
        /\ 0 <= r < num_blocks p /\ r + needed <= num_blocks p
        /\ accepts p needed r
        /\ (forall i, 0 <= i < r -> ~ accepts p needed i)
        /\ pool_alloc (Some p) size
           = (wrap (memory p + wrap (r * block_size p)),
              Some (reserve p r needed))).
Proof.
  intros Hsize needed.
  pose proof (num_blocks_needed_is_size size) as Hneeded. fold needed in Hneeded.
  destruct shape as (_ & _ & _ & _ & HN0 & HN & _).
  unfold pool_alloc.
  destruct (Z.eqb_spec size 0) as [Hz | Hnz]; [left; split; [reflexivity | now left]|].
  destruct (Z.ltb_spec (wrap (block_size p * free_blocks p)) size) as [Hcap | Hcap];
    [left; split; [reflexivity | right; now left]|].
  assert (Hpass : 0 < size <= wrap (block_size p * free_blocks p))
    by (unfold is_size in Hsize; lia).
  fold needed.
  destruct (Z_lt_ge_dec (num_blocks p) needed) as [Hlong | Hshort].
  - rewrite find_run_too_long by assumption.
    left. split; [reflexivity|]. right; right. split; [exact Hpass|].
    intros i Hi Hfit. lia.
  - assert (Hn : 0 <= needed <= num_blocks p)
      by (unfold is_size in Hneeded; lia).
    pose proof (find_run_spec p needed HN (S (Z.to_nat (num_blocks p))) 0 Hn)
      as Hspec.
    destruct (find_run p needed 0 (S (Z.to_nat (num_blocks p)))) as [r|].
    + destruct Hspec as (Hr & Hfit & Hacc & Hmin); [lia | lia |].
      right. exists r. repeat split; try assumption; try apply Hacc; try lia.
      destruct (Z.eq_dec needed 0) as [Hzero | Hpos]; [|lia].
      destruct (capacity_gives_free_block size Hpass) as (z & Hz & Hez).
      destruct (Z_lt_ge_dec z r) as [Hlt | Hge]; [|lia].
      exfalso. apply (Hmin z); [lia|]. split; [exact Hez|].
      intros k Hk. lia.
    + left. split; [reflexivity|]. right; right. split; [exact Hpass|].
      intros i Hi Hfit. apply Hspec; lia.
Qed.

End Alloc.

(** * The invariant is kept *)

Section Invariant.

Lemma pool_init_shape pool_malloc table_malloc mem bs nb p :
  is_size mem -> is_size bs -> is_size nb ->
  pool_init pool_malloc table_malloc mem bs nb = InitPool p ->
  p = {| memory := mem; block_size := bs; num_blocks := nb;
         free_blocks := nb;
         allocation_sizes := replicate (Z.to_nat nb) 0 |}
  /\ mem <> NULL /\ 0 < bs /\ 0 < nb /\ nb * sizeof_ssize_t < size_modulus.
Proof.
  intros Hmem Hbs Hnb. unfold pool_init.
  destruct (Z.eqb_spec mem NULL); [discriminate|].
  destruct (Z.eqb_spec bs 0); [discriminate|].
  destruct (Z.eqb_spec nb 0); [discriminate|].
  destruct pool_malloc; [|discriminate].
  destruct table_malloc; [|discriminate]. simpl.
  destruct (Z.ltb_spec (wrap (nb * sizeof_ssize_t)) (nb * sizeof_ssize_t))
    as [Hover | Hfits]; [discriminate|].
  intros [= <-]. pose proof (wrap_is_size (nb * sizeof_ssize_t)) as Hw.
  unfold is_size in *. repeat split; lia.
Qed.

Lemma pool_init_inv pool_malloc table_malloc mem bs nb p :
  is_size mem -> is_size bs -> is_size nb ->
  pool_init pool_malloc table_malloc mem bs nb = InitPool p ->
  pool_shape p /\ table_invariant p.
Proof.
  intros Hmem Hbs Hnb Hinit.
  destruct (pool_init_shape _ _ _ _ _ _ Hmem Hbs Hnb Hinit)
    as (-> & Hnull & Hbs0 & Hnb0 & Hfits).
  split.
  - unfold pool_shape; simpl. rewrite length_replicate.
    repeat split; try assumption; try lia; try apply Hmem; try apply Hbs;
      try apply Hnb.
    apply Forall_replicate. unfold is_ssize, ssize_half. lia.
  - unfold table_invariant; simpl. split; [|split].
    + intros i n Hi Hn Hpos. rewrite entry_replicate in Hn. exfalso. lia.
    + intros i Hi. left. apply entry_replicate.
    + rewrite count_zero_replicate. lia.
Qed.

Lemma reserve_inv p r needed :
  pool_shape p -> table_invariant p ->
  is_size needed -> 1 <= needed -> 0 <= r -> r + needed <= num_blocks p ->
  accepts p needed r ->
  pool_shape (reserve p r needed) /\ table_invariant (reserve p r needed).
Proof.
  intros Hshape (Hruns & Hkinds & Hcount) Hsz Hpos Hr Hfit (_ & Hfree).
  destruct Hshape as (Hm & Hm0 & HB & HB0 & HN0 & HN & HF & Hlen & Hty).
  unfold sizeof_ssize_t, size_modulus in HN.
  assert (Hentry : forall j, 0 <= j ->
            entry (mark_run (allocation_sizes p) r needed) j
            = if j =? r then needed
              else if (r <? j) && (j <? r + needed) then -1
              else entry (allocation_sizes p) j).
  { intros j Hj. apply entry_mark_run;
      unfold ssize_half, size_modulus; lia. }
  assert (Hzero : forall j, r <= j < r + needed ->
            entry (allocation_sizes p) j = 0).
  { intros j Hj. replace j with (r + (j - r)) by lia. apply Hfree. lia. }
  assert (Hcnt : count_zero (mark_run (allocation_sizes p) r needed)
                 = free_blocks p - needed).
  { rewrite count_zero_mark_run; unfold ssize_half, size_modulus; try lia.
    exact Hfree. }
  pose proof (count_zero_bounds (mark_run (allocation_sizes p) r needed))
    as Hbound.
  rewrite length_mark_run in Hbound.
  split.
  - unfold pool_shape, reserve; simpl. rewrite length_mark_run.
    repeat split; try assumption; try apply Hm; try apply HB;
      try apply wrap_is_size; try (unfold sizeof_ssize_t, size_modulus; lia).
    now apply Forall_mark_run.
  - unfold table_invariant, reserve; simpl. split; [|split].
    + intros i n Hi Hn Hn0. rewrite Hentry in Hn by lia.
      assert (Hold : entry (allocation_sizes p) i = n -> i + n <= num_blocks p
                /\ forall k, i + 1 <= k <= i + n - 1 ->
                     entry (allocation_sizes p) k = -1)
        by (intros Hin; now apply Hruns).
      split.
      * zcases; try lia; apply Hold; assumption.
      * intros k Hk. rewrite Hentry by lia. pose proof (Hzero k) as Hzk.
        zcases; try lia;
          destruct Hold as [_ Hcont]; try assumption;
          specialize (Hcont k); lia.
    + intros i Hi. rewrite Hentry by lia.
      zcases; try lia; apply Hkinds; lia.
    + rewrite Hcnt. apply wrap_small. unfold is_size, size_modulus. lia.
Qed.

Lemma release_inv p idx n :
  pool_shape p -> table_invariant p ->
  0 <= idx < num_blocks p -> entry (allocation_sizes p) idx = n -> 0 < n ->
  pool_shape (release p idx n) /\ table_invariant (release p idx n).
Proof.
  intros Hshape (Hruns & Hkinds & Hcount) Hidx Hn Hpos.
  destruct Hshape as (Hm & Hm0 & HB & HB0 & HN0 & HN & HF & Hlen & Hty).
  unfold sizeof_ssize_t, size_modulus in HN.
  destruct (Hruns idx n Hidx Hn Hpos) as [Hend Hcont].
  assert (Hts : to_size n = n)
    by (apply to_size_small; unfold is_size, size_modulus; lia).
  assert (Hentry : forall j, 0 <= j ->
            entry (write_run 0 (allocation_sizes p) idx 0 (Z.to_nat n)) j
            = if (idx + 0 <=? j) && (j <? idx + 0 + Z.of_nat (Z.to_nat n))
              then 0 else entry (allocation_sizes p) j).
  { intros j Hj. apply entry_write_run; unfold size_modulus; lia. }
  assert (Hcnt : count_zero
                   (write_run 0 (allocation_sizes p) idx 0 (Z.to_nat n))
                 = free_blocks p + n).
  { rewrite (count_zero_write_run _ _ _ _ _ false);
      unfold size_modulus; try lia.
    - simpl. lia.
    - intros j Hj. destruct (Z.eq_dec j idx) as [-> | Hne].
      + rewrite Hn. destruct (Z.eqb_spec n 0); [lia | reflexivity].
      + rewrite Hcont by lia. reflexivity. }
  pose proof (count_zero_bounds
                (write_run 0 (allocation_sizes p) idx 0 (Z.to_nat n)))
    as Hbound.
  rewrite length_write_run in Hbound.
  split.
  - unfold pool_shape, release; simpl. rewrite length_write_run.
    repeat split; try assumption; try apply Hm; try apply HB;
      try apply wrap_is_size; try (unfold sizeof_ssize_t, size_modulus; lia).
    apply Forall_write_run; [unfold is_ssize, ssize_half; lia | exact Hty].
  - unfold table_invariant, release; simpl. rewrite Hts. split; [|split].
    + intros i n0 Hi Hn0 Hpos0. rewrite Hentry in Hn0 by lia.
      assert (Hold : entry (allocation_sizes p) i = n0 ->
                i + n0 <= num_blocks p
                /\ forall k, i + 1 <= k <= i + n0 - 1 ->
                     entry (allocation_sizes p) k = -1)
        by (intros Hin; now apply Hruns).
      split.
      * zcases; try lia; apply Hold; assumption.
      * intros k Hk. rewrite Hentry by lia.
        zcases; try lia;
          destruct Hold as [_ Hcont']; try assumption;
          pose proof (Hcont' k); pose proof (Hcont' idx);
          pose proof (Hcont k); pose proof (Hcont i); lia.
    + intros i Hi. rewrite Hentry by lia. zcases; try lia; apply Hkinds; lia.
    + rewrite Hcnt. apply wrap_small. unfold is_size, size_modulus. lia.
Qed.

End Invariant.

(** * The outcomes of pool_free *)

Section Free.

Lemma entry_is_ssize tbl i : Forall is_ssize tbl -> is_ssize (entry tbl i).
Proof.
  intros Hty. unfold entry.
  destruct (tbl !! Z.to_nat i) as [x|] eqn:E; simpl.
  - exact (proj1 (Forall_lookup _ _) Hty _ _ E).
  - unfold is_ssize, ssize_half. lia.
Qed.

(** Either [pool_free] leaves the pool as it is -- at one of its five early
    returns -- or it gives back the run headed at the block [ptr] points
    to. *)
Lemma pool_free_cases p ptr :
  pool_shape p ->
  let offset := wrap (ptr - memory p) in
  let idx := offset / block_size p in
  let n := entry (allocation_sizes p) idx in
  (pool_free (Some p) ptr = Some p
   /\ (ptr = NULL \/ offset mod block_size p <> 0 \/ num_blocks p <= idx
       \/ n <= 0 \/ num_blocks p < idx + n))
  \/ (ptr <> NULL /\ offset mod block_size p = 0 /\ 0 <= idx < num_blocks p
      /\ 0 < n /\ idx + n <= num_blocks p
      /\ pool_free (Some p) ptr = Some (release p idx n)).
Proof.
  intros (Hm & Hm0 & HB & HB0 & HN0 & HN & HF & Hlen & Hty) offset idx n.
  unfold sizeof_ssize_t, size_modulus in HN.
  unfold pool_free. fold offset. fold idx. fold n.
  destruct (Z.eqb_spec ptr NULL) as [Hnull | Hptr];
    [left; split; [reflexivity | now left]|].
  destruct (Z.eqb_spec (offset mod block_size p) 0) as [Hal | Hmis]; simpl negb;
    cbv iota; [|left; split; [reflexivity | right; now left]].
  destruct (Z.leb_spec (num_blocks p) idx) as [Hout | Hin];
    [left; split; [reflexivity | right; right; now left]|].
  destruct (Z.leb_spec n 0) as [Hfree | Hhead];
    [left; split; [reflexivity | right; right; right; now left]|].
  assert (Hidx : 0 <= idx).
  { apply Z.div_pos; [|lia]. apply (wrap_is_size (ptr - memory p)). }
  pose proof (entry_is_ssize (allocation_sizes p) idx Hty) as Hn. fold n in Hn.
  unfold is_ssize, ssize_half in Hn.
  rewrite (to_size_small n) by (unfold is_size, size_modulus; lia).
  rewrite (wrap_small (idx + n)) by (unfold is_size, size_modulus; lia).
  destruct (Z.ltb_spec (num_blocks p) (idx + n)) as [Hlong | Hfit].
  - left. split; [reflexivity|]. right; right; right; now right.
  - right. repeat split; try assumption; try lia.
    unfold release. rewrite (to_size_small n)
      by (unfold is_size, size_modulus; lia).
    reflexivity.
Qed.

End Free.

(** * Every state of a pool satisfies the invariant *)

Section Reachable.

Lemma pool_alloc_inv p size ptr p' :
  pool_shape p -> table_invariant p -> is_size size ->
  pool_alloc (Some p) size = (ptr, Some p') ->
  pool_shape p' /\ table_invariant p'.
Proof.
  intros Hshape Hinv Hsize Hcall.
  destruct (pool_alloc_cases p Hshape Hinv size Hsize)
    as [[Hnull _] | (r & Hpass & Hr & Hfit & Hacc & _ & Hres)].
  - rewrite Hnull in Hcall. injection Hcall as _ <-. now split.
  - rewrite Hres in Hcall. injection Hcall as _ <-.
    pose proof (num_blocks_needed_is_size p Hshape size) as Hneeded.
    destruct (Z.eq_dec (num_blocks_needed p size) 0) as [Hzero | Hpos].
    + rewrite Hzero, reserve_nothing; [now split | apply Hshape | apply Hacc].
    + apply reserve_inv; try assumption; unfold is_size in Hneeded; lia.
Qed.

Lemma pool_free_inv p ptr p' :
  pool_shape p -> table_invariant p ->
  pool_free (Some p) ptr = Some p' ->
  pool_shape p' /\ table_invariant p'.
Proof.
  intros Hshape Hinv Hcall.
  destruct (pool_free_cases p ptr Hshape)
    as [[Hsame _] | (_ & _ & Hidx & Hn & _ & Hrel)].
  - rewrite Hsame in Hcall. injection Hcall as <-. now split.
  - rewrite Hrel in Hcall. injection Hcall as <-.
    now apply release_inv.
Qed.

Lemma reachable_inv p : reachable p -> pool_shape p /\ table_invariant p.
Proof.
  induction 1 as [pm tm mem bs nb p Hm Hb Hn Hinit
                 | p size ptr p' _ IH Hsize Hcall
                 | p ptr p' _ IH Hptr Hcall].
  - exact (pool_init_inv _ _ _ _ _ _ Hm Hb Hn Hinit).
  - destruct IH as [Hshape Hinv].
    exact (pool_alloc_inv _ _ _ _ Hshape Hinv Hsize Hcall).
  - destruct IH as [Hshape Hinv].
    exact (pool_free_inv _ _ _ Hshape Hinv Hcall).
Qed.

(** C1.  In every state a pool reaches from [pool_init] through calls of
    [pool_alloc] and [pool_free], a head entry [n] at index [i] is followed
    by [-1] at [i+1 .. i+n-1] with [i + n <= num_blocks], every entry is [0],
    [-1] or a positive head value, and [free_blocks] is the number of zero
    entries. *)
Theorem reachable_table_invariant p : reachable p -> table_invariant p.
Proof. intros Hreach. exact (proj2 (reachable_inv p Hreach)). Qed.

End Reachable.

(** * Valid pools *)

Section Valid.

Variable p : mem_pool.
Hypothesis valid : valid_pool p.

Lemma valid_free_le : 0 <= free_blocks p <= num_blocks p.
Proof.
  destruct valid as ((_ & _ & _ & _ & _ & _ & _ & Hlen & _)
                     & (_ & _ & Hcount) & _).
  rewrite Hcount, <- Hlen. apply count_zero_bounds.
Qed.

(** In a valid pool the capacity [block_size * free_blocks] is computed
    without wrap-around. *)
Lemma valid_capacity_exact :
  wrap (block_size p * free_blocks p) = block_size p * free_blocks p.
Proof.
  pose proof valid_free_le as HF.
  destruct valid as ((Hm & Hm0 & HB & HB0 & _) & _ & Hreg).
  unfold region_ok in Hreg. apply wrap_small.
  assert (Hle : block_size p * free_blocks p <= block_size p * num_blocks p)
    by (apply Z.mul_le_mono_nonneg_l; lia).
  assert (Hpos : 0 <= block_size p * free_blocks p)
    by (apply Z.mul_nonneg_nonneg; lia).
  unfold is_size, NULL in *. lia.
Qed.

(** The address of a block of a valid pool is computed without
    wrap-around, and is not [NULL]. *)
Lemma valid_block_address i :
  0 <= i < num_blocks p ->
  wrap (memory p + wrap (i * block_size p)) = memory p + i * block_size p
  /\ memory p + i * block_size p <> NULL.
Proof.
  intros Hi.
  destruct valid as ((Hm & Hm0 & HB & HB0 & _) & _ & Hreg).
  unfold region_ok in Hreg. unfold is_size, NULL in *.
  assert (Hoff : 0 <= i * block_size p) by nia.
  assert (Hend : memory p + i * block_size p < size_modulus) by nia.
  rewrite (wrap_small (i * block_size p)) by (unfold is_size; lia).
  rewrite wrap_small by (unfold is_size; lia).
  split; [reflexivity | lia].
Qed.

(** When the rounding of line 62 wraps and yields no block at all, the pool
    is entirely free. *)
Lemma valid_zero_needed_all_free size i :
  0 < size <= block_size p * free_blocks p ->
  num_blocks_needed p size = 0 ->
  entry (allocation_sizes p) i = 0.
Proof.
  intros Hsize Hzero. pose proof valid_free_le as HF.
  destruct valid as ((Hm & Hm0 & HB & HB0 & HN0 & _ & _ & Hlen & _)
                     & (_ & _ & Hcount) & Hreg).
  unfold region_ok in Hreg. unfold num_blocks_needed in Hzero.
  apply count_zero_full. rewrite <- Hcount, Hlen.
  assert (Hlt : wrap (size + block_size p - 1) < block_size p).
  { pose proof (wrap_is_size (size + block_size p - 1)) as Hw.
    destruct (Z_lt_ge_dec (wrap (size + block_size p - 1)) (block_size p))
      as [Hlt | Hge]; [exact Hlt|].
    assert (1 <= wrap (size + block_size p - 1) / block_size p)
      by (apply Z.div_le_lower_bound; lia).
    lia. }
  destruct (Z_lt_ge_dec (size + block_size p - 1) size_modulus) as [Hs | Hw].
  - rewrite wrap_small in Hlt by (unfold is_size in *; lia). lia.
  - unfold is_size in *. nia.
Qed.

(** For a request of at least one block, the test of the search at an
    index is the claim that the run fits there. *)
Lemma accepts_run_fits needed i :
  1 <= needed ->
  run_fits p needed i
  <-> 0 <= i /\ i + needed <= num_blocks p /\ accepts p needed i.
Proof.
  intros Hneeded. unfold run_fits, accepts. split.
  - intros (Hi & Hfit & Hrun). repeat split; try assumption.
    + apply Hrun. lia.
    + intros k Hk. apply Hrun. lia.
  - intros (Hi & Hfit & _ & Hrun). repeat split; try assumption.
    intros k Hk. replace k with (i + (k - i)) by lia. apply Hrun. lia.
Qed.

End Valid.

(** * Valid pools stay valid *)

Section ValidKept.

Lemma pool_alloc_valid p size ptr p' :
  valid_pool p -> is_size size ->
  pool_alloc (Some p) size = (ptr, Some p') ->
  valid_pool p'.
Proof.
  intros (Hshape & Hinv & Hreg) Hsize Hcall.
  destruct (pool_alloc_inv p size ptr p' Hshape Hinv Hsize Hcall)
    as [Hshape' Hinv'].
  split; [exact Hshape' | split; [exact Hinv'|]].
  destruct (pool_alloc_cases p Hshape Hinv size Hsize)
    as [[Hsame _] | (r & _ & _ & _ & _ & _ & Hres)].
  - rewrite Hsame in Hcall. injection Hcall as _ <-. exact Hreg.
  - rewrite Hres in Hcall. injection Hcall as _ <-. exact Hreg.
Qed.

Lemma pool_free_valid p ptr p' :
  valid_pool p -> pool_free (Some p) ptr = Some p' -> valid_pool p'.
Proof.
  intros (Hshape & Hinv & Hreg) Hcall.
  destruct (pool_free_inv p ptr p' Hshape Hinv Hcall) as [Hshape' Hinv'].
  split; [exact Hshape' | split; [exact Hinv'|]].
  destruct (pool_free_cases p ptr Hshape)
    as [[Hsame _] | (_ & _ & _ & _ & _ & Hrel)].
  - rewrite Hsame in Hcall. injection Hcall as <-. exact Hreg.
  - rewrite Hrel in Hcall. injection Hcall as <-. exact Hreg.
Qed.

(** The pool [pool_init] makes over a region that lies in the address space
    is valid. *)
Lemma pool_init_valid pool_malloc table_malloc mem bs nb p :
  is_size mem -> is_size bs -> is_size nb ->
  mem + bs * nb <= size_modulus ->
  pool_init pool_malloc table_malloc mem bs nb = InitPool p ->
  valid_pool p.
Proof.
  intros Hmem Hbs Hnb Hreg Hinit.
  destruct (pool_init_inv _ _ _ _ _ _ Hmem Hbs Hnb Hinit) as [Hshape Hinv].
  split; [exact Hshape | split; [exact Hinv|]].
  destruct (pool_init_shape _ _ _ _ _ _ Hmem Hbs Hnb Hinit) as (-> & _).
  exact Hreg.
Qed.

End ValidKept.

(** * First fit *)

Section FirstFit.

(** C3.  In a valid pool, for a request with
    [0 < size <= block_size * free_blocks] whose [blocks_needed] blocks
    (the [num_blocks_needed] of line 62) fit in some free run, [pool_alloc]
    takes the smallest index [i] whose run [i .. i+blocks_needed-1] is free
    and inside the table, writes [blocks_needed] at [i] and [-1] at
    [i+1 .. i+blocks_needed-1], keeps the other entries, takes
    [blocks_needed] off [free_blocks], and returns the address
    [memory + i * block_size]. *)
Theorem pool_alloc_first_fit p size :
  valid_pool p ->
  0 < size <= block_size p * free_blocks p ->
  (exists j, run_fits p (num_blocks_needed p size) j) ->
  exists i p',
    run_fits p (num_blocks_needed p size) i
    /\ (forall j, run_fits p (num_blocks_needed p size) j -> i <= j)
    /\ pool_alloc (Some p) size = (memory p + i * block_size p, Some p')
    /\ entry (allocation_sizes p') i = num_blocks_needed p size
    /\ (forall k, i + 1 <= k <= i + num_blocks_needed p size - 1 ->
          entry (allocation_sizes p') k = -1)
    /\ (forall k, 0 <= k -> ~ i <= k < i + num_blocks_needed p size ->
          entry (allocation_sizes p') k = entry (allocation_sizes p) k)
    /\ length (allocation_sizes p') = length (allocation_sizes p)
    /\ free_blocks p' = free_blocks p - num_blocks_needed p size
    /\ memory p' = memory p /\ block_size p' = block_size p
    /\ num_blocks p' = num_blocks p.
Proof.
  intros Hvalid Hsize [j Hj].
  pose proof Hvalid as (Hshape & Hinv & Hreg).
  pose proof (valid_capacity_exact p Hvalid) as Hcap.
  pose proof (valid_free_le p Hvalid) as HF.
  pose proof (num_blocks_needed_is_size p Hshape size) as Hneeded.
  pose proof Hshape as (Hm & Hm0 & HB & HB0 & HN0 & HN & HFs & Hlen & Hty).
  unfold sizeof_ssize_t, size_modulus in HN.
  assert (Hsz : is_size size).
  { rewrite <- Hcap in Hsize.
    pose proof (wrap_is_size (block_size p * free_blocks p)).
    unfold is_size in *. lia. }
  destruct (pool_alloc_cases p Hshape Hinv size Hsz)
    as [[_ [H0 | [Hover | [_ Hnone]]]]
       | (r & _ & Hr & Hfit & Hacc & Hmin & Hres)].
  - lia.
  - rewrite Hcap in Hover. lia.
  - exfalso. destruct (Z.eq_dec (num_blocks_needed p size) 0) as [Hz | Hnz].
    + apply (Hnone 0); [lia | lia |]. split; [|intros k _];
        now apply (valid_zero_needed_all_free p Hvalid size).
    + apply (accepts_run_fits p) in Hj; [|unfold is_size in Hneeded; lia].
      destruct Hj as (Hj0 & Hjfit & Hjacc). now apply (Hnone j).
  - destruct (Z.eq_dec (num_blocks_needed p size) 0) as [Hz | Hnz].
    + (* the rounding wrapped: nothing is reserved, at index 0 *)
      assert (Hall : forall i, entry (allocation_sizes p) i = 0)
        by (intros i; now apply (valid_zero_needed_all_free p Hvalid size)).
      assert (Hr0 : r = 0).
      { destruct (Z.eq_dec r 0) as [E | E]; [exact E|].
        exfalso. apply (Hmin 0); [lia|]. split; [|intros k _]; apply Hall. }
      subst r. rewrite Hz in *. rewrite reserve_nothing in Hres
        by (try exact HFs; apply Hall).
      change (0 * block_size p) with 0 in *. change (wrap 0) with 0 in Hres.
      rewrite Z.add_0_r in *. rewrite (wrap_small _ Hm) in Hres.
      exists 0, p.
      split; [unfold run_fits; repeat split; try lia; intros k Hk; lia|].
      split; [intros j' (Hj' & _); exact Hj'|].
      split; [change (0 * block_size p) with 0; rewrite Z.add_0_r;
              exact Hres|].
      split; [apply Hall|].
      split; [intros k Hk; lia|].
      repeat split; lia.
    + assert (Hpos : 1 <= num_blocks_needed p size)
        by (unfold is_size in Hneeded; lia).
      destruct (valid_block_address p Hvalid r Hr) as [Haddr _].
      rewrite Haddr in Hres.
      assert (Hentry : forall k, 0 <= k ->
                entry (mark_run (allocation_sizes p) r
                         (num_blocks_needed p size)) k
                = if k =? r then num_blocks_needed p size
                  else if (r <? k) && (k <? r + num_blocks_needed p size)
                       then -1
                       else entry (allocation_sizes p) k).
      { intros k Hk. apply entry_mark_run;
          unfold ssize_half, size_modulus; lia. }
      assert (Hcnt : count_zero (mark_run (allocation_sizes p) r
                                   (num_blocks_needed p size))
                     = free_blocks p - num_blocks_needed p size).
      { destruct Hinv as (_ & _ & ->).
        apply count_zero_mark_run;
          unfold ssize_half, size_modulus; try lia. apply Hacc. }
      pose proof (count_zero_bounds
                    (mark_run (allocation_sizes p) r
                       (num_blocks_needed p size))) as Hbound.
      exists r, (reserve p r (num_blocks_needed p size)).
      split; [apply (accepts_run_fits p); [exact Hpos | repeat split;
                try lia; apply Hacc]|].
      split.
      { intros j' Hj'. apply (accepts_run_fits p) in Hj'; [|exact Hpos].
        destruct Hj' as (Hj0 & _ & Hjacc).
        destruct (Z_lt_ge_dec j' r) as [Hlt | Hge]; [|lia].
        exfalso. now apply (Hmin j'). }
      split; [exact Hres|]. simpl.
      repeat split.
      * rewrite Hentry by lia. zcases; lia.
      * intros k Hk. rewrite Hentry by lia. zcases; lia.
      * intros k Hk Hout. rewrite Hentry by lia. zcases; lia.
      * apply length_mark_run.
      * apply wrap_small. unfold is_size, size_modulus. lia.
Qed.

End FirstFit.

(** * Requests that are turned down *)

Section Rejection.

(** C4.  In a valid pool (its shape is all that is used), [pool_alloc]
    returns [NULL] for every request whose size exceeds
    [block_size * free_blocks], the product taken in unbounded integers, and
    for every request of size [0]. *)
Theorem pool_alloc_rejects p size :
  pool_shape p -> is_size size ->
  size = 0 \/ block_size p * free_blocks p < size ->
  fst (pool_alloc (Some p) size) = NULL.
Proof.
  intros (_ & _ & HB & _ & _ & _ & HF & _) Hsize Hbad. unfold pool_alloc.
  destruct (Z.eqb_spec size 0) as [Hz | Hnz]; [reflexivity|].
  destruct Hbad as [H0 | Hover]; [contradiction|].
  assert (Hle : wrap (block_size p * free_blocks p)
                <= block_size p * free_blocks p).
  { apply wrap_le. unfold is_size in *. apply Z.mul_nonneg_nonneg; lia. }
  destruct (Z.ltb_spec (wrap (block_size p * free_blocks p)) size);
    [reflexivity | lia].
Qed.

(** C6.  When [pool_alloc] returns [NULL] on a valid pool, the pool is left
    as it was -- table and [free_blocks] alike -- and the request had size
    [0], or exceeded the free capacity, or needed a run that fits nowhere. *)
Theorem pool_alloc_failure_keeps_pool p size :
  valid_pool p -> is_size size ->
  fst (pool_alloc (Some p) size) = NULL ->
  pool_alloc (Some p) size = (NULL, Some p)
  /\ (size = 0
      \/ block_size p * free_blocks p < size
      \/ ~ exists i, run_fits p (num_blocks_needed p size) i).
Proof.
  intros Hvalid Hsize Hnull.
  pose proof Hvalid as (Hshape & Hinv & _).
  pose proof (valid_capacity_exact p Hvalid) as Hcap.
  pose proof (num_blocks_needed_is_size p Hshape size) as Hneeded.
  destruct (pool_alloc_cases p Hshape Hinv size Hsize)
    as [[Hsame [H0 | [Hover | [Hpass Hnone]]]]
       | (r & _ & Hr & _ & _ & _ & Hres)].
  - split; [exact Hsame | now left].
  - split; [exact Hsame | right; left; lia].
  - split; [exact Hsame | right; right].
    rewrite Hcap in Hpass. intros [i Hi].
    destruct (Z.eq_dec (num_blocks_needed p size) 0) as [Hz | Hnz].
    + apply (Hnone 0);
        [lia | destruct Hshape as (_ & _ & _ & _ & ? & _); lia |].
      split; [|intros k _];
        now apply (valid_zero_needed_all_free p Hvalid size).
    + apply (accepts_run_fits p) in Hi; [|unfold is_size in Hneeded; lia].
      destruct Hi as (Hi0 & Hfit & Hacc). now apply (Hnone i).
  - exfalso. rewrite Hres in Hnull. simpl in Hnull.
    destruct (valid_block_address p Hvalid r Hr) as [Haddr Hnn].
    rewrite Haddr in Hnull. contradiction.
Qed.

End Rejection.

(** * Frees that are ignored *)

Section IgnoredFree.

(** C10.  [pool_free] of the null pointer returns at once: the pool is left
    as it was. *)
Theorem pool_free_null p : pool_free (Some p) NULL = Some p.
Proof. reflexivity. Qed.

(** Giving a run back leaves a free block where its head was. *)
Lemma release_head_free p idx n :
  pool_shape p -> 0 <= idx -> 0 < n -> idx + n <= num_blocks p ->
  entry (allocation_sizes (release p idx n)) idx = 0.
Proof.
  intros (_ & _ & _ & _ & _ & HN & _ & Hlen & _) Hidx Hn Hfit.
  unfold sizeof_ssize_t, size_modulus in HN. unfold release; simpl.
  rewrite (to_size_small n) by (unfold is_size, size_modulus; lia).
  rewrite entry_write_run by (unfold size_modulus; lia).
  zcases; lia.
Qed.

(** C7.  In a valid pool (its shape is all that is used), [pool_free] leaves
    the pool as it was when the offset of the pointer from [memory] is not a
    multiple of [block_size], or its block index is not below [num_blocks],
    or the entry at that index is [0] or [-1], or it is a head [n] with
    [index + n > num_blocks]; and a second [pool_free] of the same pointer
    changes nothing. *)
Theorem pool_free_ignores p ptr :
  pool_shape p ->
  (wrap (ptr - memory p) mod block_size p <> 0
   \/ num_blocks p <= wrap (ptr - memory p) / block_size p
   \/ entry (allocation_sizes p) (wrap (ptr - memory p) / block_size p) = 0
   \/ entry (allocation_sizes p) (wrap (ptr - memory p) / block_size p) = -1
   \/ (0 < entry (allocation_sizes p) (wrap (ptr - memory p) / block_size p)
       /\ num_blocks p
          < wrap (ptr - memory p) / block_size p
            + entry (allocation_sizes p)
                (wrap (ptr - memory p) / block_size p)) ->
   pool_free (Some p) ptr = Some p)
  /\ pool_free (pool_free (Some p) ptr) ptr = pool_free (Some p) ptr.
Proof.
  intros Hshape.
  destruct (pool_free_cases p ptr Hshape)
    as [[Hsame _] | (Hptr & Hal & Hidx & Hn & Hfit & Hrel)].
  - split; [intros _; exact Hsame | now rewrite Hsame].
  - split; [intros Hbad; lia|].
    rewrite Hrel.
    assert (Hshape' : pool_shape
              (release p (wrap (ptr - memory p) / block_size p)
                 (entry (allocation_sizes p)
                    (wrap (ptr - memory p) / block_size p)))).
    { destruct Hshape as (Hm & Hm0 & HB & HB0 & HN0 & HN & HF & Hlen & Hty).
      unfold pool_shape, release; simpl. rewrite length_write_run.
      repeat split; try assumption; try apply Hm; try apply HB;
        try apply wrap_is_size.
      apply Forall_write_run; [unfold is_ssize, ssize_half; lia | exact Hty]. }
    destruct (pool_free_cases _ ptr Hshape')
      as [[Hsame _] | (_ & _ & _ & Hn' & _)]; [exact Hsame|].
    exfalso. simpl memory in Hn'. simpl block_size in Hn'.
    rewrite release_head_free in Hn'; try assumption; lia.
Qed.

End IgnoredFree.

(** * Creation *)

Section Creation.

(** C8.  [pool_init] returns no pool exactly when [memory] is null,
    [block_size] is [0], [num_blocks] is [0], or one of the two calls of
    [malloc] fails.  The pool it yields has a table of [num_blocks] entries,
    all [0], [free_blocks = num_blocks], and the caller's [memory], with
    [block_size] and [num_blocks] as given; and it yields one whenever it
    does not return [NULL] and the table of [num_blocks] entries can be
    asked of [malloc]. *)
Theorem pool_init_outcome pool_malloc table_malloc mem bs nb :
  is_size nb ->
  (pool_init pool_malloc table_malloc mem bs nb = InitNull
   <-> mem = NULL \/ bs = 0 \/ nb = 0
       \/ pool_malloc = false \/ table_malloc = false)
  /\ (forall p,
        pool_init pool_malloc table_malloc mem bs nb = InitPool p ->
        Z.of_nat (length (allocation_sizes p)) = nb
        /\ Forall (fun x => x = 0) (allocation_sizes p)
        /\ free_blocks p = nb
        /\ memory p = mem /\ block_size p = bs /\ num_blocks p = nb)
  /\ (nb * sizeof_ssize_t < size_modulus ->
      pool_init pool_malloc table_malloc mem bs nb <> InitNull ->
      exists p, pool_init pool_malloc table_malloc mem bs nb = InitPool p).
Proof.
  intros Hnb. unfold pool_init.
  destruct (Z.eqb_spec mem NULL) as [Hm | Hm]; simpl orb.
  { split; [tauto|]. split; [discriminate | intros _ H; now elim H]. }
  destruct (Z.eqb_spec bs 0) as [Hb | Hb]; simpl orb.
  { split; [tauto|]. split; [discriminate | intros _ H; now elim H]. }
  destruct (Z.eqb_spec nb 0) as [Hn | Hn]; simpl orb; cbv iota.
  { split; [tauto|]. split; [discriminate | intros _ H; now elim H]. }
  destruct pool_malloc; simpl negb; cbv iota;
    [| split; [tauto|]; split; [discriminate | intros _ H; now elim H]].
  destruct table_malloc; simpl negb; cbv iota;
    [| split; [tauto|]; split; [discriminate | intros _ H; now elim H]].
  destruct (Z.ltb_spec (wrap (nb * sizeof_ssize_t)) (nb * sizeof_ssize_t))
    as [Hover | Hfits].
  - split; [split; [discriminate | intros [?|[?|[?|[?|?]]]]; congruence]|].
    split; [discriminate|]. intros Hsmall _. exfalso.
    rewrite wrap_small in Hover; [lia|].
    unfold is_size, sizeof_ssize_t in *. lia.
  - split; [split; [discriminate | intros [?|[?|[?|[?|?]]]]; congruence]|].
    split; [|intros _ _; eexists; reflexivity].
    intros p [= <-]; simpl. rewrite length_replicate.
    repeat split; try reflexivity.
    + unfold is_size in Hnb. lia.
    + now apply Forall_replicate.
Qed.

(** C2.  Take any [block_size > 0], [num_blocks > 0] and [size] such that
    [pool_alloc] succeeds on the pool [pool_init] has just made.  Freeing the
    address it returned gives the fresh pool back: [free_blocks] is
    [num_blocks] again and every entry of the table is [0]. *)
Theorem init_alloc_free_restores pool_malloc table_malloc mem bs nb size
    p ptr st :
  is_size mem -> is_size bs -> is_size nb -> is_size size ->
  0 < bs -> 0 < nb ->
  pool_init pool_malloc table_malloc mem bs nb = InitPool p ->
  pool_alloc (Some p) size = (ptr, st) ->
  ptr <> NULL ->
  exists p2,
    pool_free st ptr = Some p2
    /\ free_blocks p2 = nb
    /\ Z.of_nat (length (allocation_sizes p2)) = nb
    /\ Forall (fun x => x = 0) (allocation_sizes p2)
    /\ p2 = p.
Proof.
  intros Hmem Hbs Hnbs Hsize Hbs0 Hnb0 Hinit Hcall Hptr.
  destruct (pool_init_inv _ _ _ _ _ _ Hmem Hbs Hnbs Hinit) as [Hshape Hinv].
  destruct (pool_init_shape _ _ _ _ _ _ Hmem Hbs Hnbs Hinit)
    as (Hp & Hnull & _ & _ & Hfits).
  unfold sizeof_ssize_t, size_modulus in Hfits.
  assert (Hall : forall i, entry (allocation_sizes p) i = 0)
    by (intros i; rewrite Hp; apply entry_replicate).
  assert (Hfresh : free_blocks p = nb
                   /\ Z.of_nat (length (allocation_sizes p)) = nb
                   /\ Forall (fun x => x = 0) (allocation_sizes p)).
  { rewrite Hp; simpl. rewrite length_replicate.
    repeat split; [lia | now apply Forall_replicate]. }
  assert (Hfields : memory p = mem /\ block_size p = bs /\ num_blocks p = nb)
    by (rewrite Hp; repeat split).
  destruct Hfields as (Hfm & Hfb & Hfn).
  pose proof (num_blocks_needed_is_size p Hshape size) as Hneeded.
  destruct (pool_alloc_cases p Hshape Hinv size Hsize)
    as [[Hsame _] | (r & _ & Hr & Hfit & _ & Hmin & Hres)].
  { rewrite Hsame in Hcall. injection Hcall as <- _. contradiction. }
  assert (Hr0 : r = 0).
  { destruct (Z.eq_dec r 0) as [E | E]; [exact E|].
    exfalso. apply (Hmin 0); [lia|]. split; [|intros k _]; apply Hall. }
  subst r. rewrite Hres in Hcall. injection Hcall as <- <-.
  change (0 * block_size p) with 0. change (wrap 0) with 0.
  rewrite Z.add_0_r, Hfm, (wrap_small mem Hmem).
  exists p. split; [|tauto].
  destruct (Z.eq_dec (num_blocks_needed p size) 0) as [Hz | Hnz].
  - rewrite Hz, reserve_nothing by (try apply Hshape; apply Hall).
    destruct (pool_free_cases p mem Hshape)
      as [[Hsame _] | (_ & _ & _ & Hn & _)]; [exact Hsame|].
    rewrite Hall in Hn. lia.
  - set (needed := num_blocks_needed p size) in *.
    assert (Hpos : 1 <= needed) by (unfold is_size in Hneeded; lia).
    destruct (reserve_inv p 0 needed Hshape Hinv Hneeded Hpos)
      as [Hshape1 Hinv1]; [lia | lia | split; [|intros k _]; apply Hall |].
    assert (Hentry : forall k, 0 <= k ->
              entry (mark_run (allocation_sizes p) 0 needed) k
              = if k =? 0 then needed
                else if (0 <? k) && (k <? 0 + needed) then -1
                else entry (allocation_sizes p) k).
    { intros k Hk. apply entry_mark_run;
        unfold ssize_half, size_modulus; lia. }
    assert (Hoff : wrap (mem - memory (reserve p 0 needed)) = 0)
      by (simpl; rewrite Hfm, Z.sub_diag; reflexivity).
    pose proof (pool_free_cases (reserve p 0 needed) mem Hshape1) as Hfree.
    cbv zeta in Hfree. rewrite Hoff in Hfree.
    change (block_size (reserve p 0 needed)) with (block_size p) in Hfree.
    change (num_blocks (reserve p 0 needed)) with (num_blocks p) in Hfree.
    change (allocation_sizes (reserve p 0 needed))
      with (mark_run (allocation_sizes p) 0 needed) in Hfree.
    rewrite Zdiv_0_l, Zmod_0_l, Hentry in Hfree by lia.
    change (0 =? 0) with true in Hfree. cbv iota in Hfree.
    destruct Hfree as [[_ Hbad] | (_ & _ & _ & _ & _ & Hrel)].
    { exfalso. unfold NULL in *. lia. }
    rewrite Hrel. f_equal.
    unfold release, reserve; simpl.
    rewrite (to_size_small needed) by exact Hneeded.
    rewrite Hp; simpl. f_equal.
    + unfold is_size, size_modulus in *.
      rewrite (wrap_small (nb - needed)) by (unfold is_size, size_modulus; lia).
      replace (nb - needed + needed) with nb by lia.
      apply wrap_small. unfold is_size, size_modulus. lia.
    + apply table_ext.
      * now rewrite length_write_run, length_mark_run.
      * intros i Hi. rewrite length_write_run, length_mark_run in Hi.
        rewrite length_replicate in Hi.
        rewrite entry_write_run;
          rewrite ?length_mark_run, ?length_replicate;
          unfold size_modulus; try lia.
        rewrite Hp in Hentry. simpl in Hentry. rewrite Hentry by lia.
        rewrite !entry_replicate. zcases; lia.
Qed.

End Creation.

(** * Rounding the size up to blocks *)

Section Rounding.

(** [ceil_div size b] is the least number of blocks of [b] bytes that hold
    [size] bytes. *)
Lemma ceil_div_spec size b :
  0 < b -> (ceil_div size b - 1) * b < size <= ceil_div size b * b.
Proof.
  intros Hb. unfold ceil_div.
  pose proof (Z.div_mod (size + b - 1) b ltac:(lia)) as Hdm.
  pose proof (Z.mod_pos_bound (size + b - 1) b Hb) as Hr.
  nia.
Qed.

(** Line 62 computes it as long as [size + block_size - 1] is a [size_t]. *)
Lemma num_blocks_needed_exact p size :
  0 <= size + block_size p - 1 < size_modulus ->
  num_blocks_needed p size = ceil_div size (block_size p).
Proof.
  intros Hfit. unfold num_blocks_needed, ceil_div.
  now rewrite wrap_small.
Qed.

(** Then a successful [pool_alloc] reserves that many blocks. *)
Lemma pool_alloc_reserves_rounded p size ptr p' :
  valid_pool p -> is_size size ->
  size + block_size p - 1 < size_modulus ->
  pool_alloc (Some p) size = (ptr, Some p') -> ptr <> NULL ->
  free_blocks p' = free_blocks p - ceil_div size (block_size p)
  /\ exists i, 0 <= i < num_blocks p
       /\ ptr = memory p + i * block_size p
       /\ entry (allocation_sizes p') i = ceil_div size (block_size p).
Proof.
  intros Hvalid Hsize Hfit Hcall Hptr.
  pose proof Hvalid as (Hshape & Hinv & _).
  pose proof Hshape as (Hm & Hm0 & HB & HB0 & HN0 & HN & HFs & Hlen & Hty).
  unfold sizeof_ssize_t, size_modulus in HN.
  destruct (pool_alloc_cases p Hshape Hinv size Hsize)
    as [[Hsame _] | (r & Hpass & Hr & Hrfit & Hacc & _ & Hres)].
  { rewrite Hsame in Hcall. injection Hcall as <- _. contradiction. }
  rewrite Hres in Hcall. injection Hcall as <- <-.
  destruct (valid_block_address p Hvalid r Hr) as [Haddr _].
  rewrite <- num_blocks_needed_exact by (unfold is_size in *; lia).
  pose proof (num_blocks_needed_is_size p Hshape size) as Hneeded.
  pose proof (ceil_div_spec size (block_size p) HB0) as Hceil.
  rewrite <- num_blocks_needed_exact in Hceil by (unfold is_size in *; lia).
  set (needed := num_blocks_needed p size) in *.
  assert (Hpos : 1 <= needed) by nia.
  destruct (reserve_inv p r needed Hshape Hinv Hneeded Hpos)
    as [_ (_ & _ & Hcount)]; [lia | lia | exact Hacc |].
  split.
  - rewrite Hcount. simpl. destruct Hinv as (_ & _ & ->).
    apply count_zero_mark_run;
      unfold ssize_half, size_modulus; try lia. apply Hacc.
  - exists r. split; [exact Hr|]. split; [exact Haddr|]. simpl.
    rewrite entry_mark_run by (unfold ssize_half, size_modulus; lia).
    now rewrite Z.eqb_refl.
Qed.

Lemma huge_pool_valid : valid_pool huge_pool.
Proof.
  assert (Hinit : pool_init true true 4096 (2 ^ 63 + 1) 1 = InitPool huge_pool)
    by reflexivity.
  destruct (pool_init_inv true true 4096 (2 ^ 63 + 1) 1 huge_pool)
    as [Hshape Hinv];
    try (unfold is_size, size_modulus; lia); [exact Hinit|].
  split; [exact Hshape | split; [exact Hinv|]].
  unfold region_ok, huge_pool, size_modulus; simpl. lia.
Qed.

(** C5, which the code does not meet.  [pool_init] makes the valid pool
    [huge_pool] of one block of [2^63 + 1] bytes.  A request of [2^63] bytes
    needs one block, [ceil_div] says; line 62 wraps and computes none, and
    [pool_alloc] returns the address of block [0] while the table and
    [free_blocks] stay as they were: fewer blocks than
    [ceil (size / block_size)] are reserved. *)
Theorem rounding_wraps_to_no_block :
  pool_init true true 4096 (2 ^ 63 + 1) 1 = InitPool huge_pool
  /\ valid_pool huge_pool
  /\ ceil_div (2 ^ 63) (block_size huge_pool) = 1
  /\ num_blocks_needed huge_pool (2 ^ 63) = 0
  /\ pool_alloc (Some huge_pool) (2 ^ 63) = (4096, Some huge_pool).
Proof.
  split; [reflexivity|]. split; [exact huge_pool_valid|].
  repeat split; vm_compute; reflexivity.
Qed.

End Rounding.

(** * Fragmentation *)

Section Fragmentation.

Lemma frag_pool_reachable : reachable frag_pool.
Proof.
  assert (H0 : reachable (frag_state 8 [0; 0; 0; 0; 0; 0; 0; 0])).
  { apply (reach_init true true 4096 16 8);
      try (unfold is_size, size_modulus; lia). reflexivity. }
  assert (H1 : reachable (frag_state 6 [2; -1; 0; 0; 0; 0; 0; 0])).
  { apply (reach_alloc _ 32 4096 _ H0);
      [unfold is_size, size_modulus; lia | vm_compute; reflexivity]. }
  assert (H2 : reachable (frag_state 3 [2; -1; 3; -1; -1; 0; 0; 0])).
  { apply (reach_alloc _ 48 4128 _ H1);
      [unfold is_size, size_modulus; lia | vm_compute; reflexivity]. }
  assert (H3 : reachable (frag_state 0 [2; -1; 3; -1; -1; 3; -1; -1])).
  { apply (reach_alloc _ 48 4176 _ H2);
      [unfold is_size, size_modulus; lia | vm_compute; reflexivity]. }
  assert (H4 : reachable (frag_state 2 [0; 0; 3; -1; -1; 3; -1; -1])).
  { apply (reach_free _ 4096 _ H3);
      [unfold is_size, size_modulus; lia | vm_compute; reflexivity]. }
  apply (reach_free _ 4176 _ H4);
    [unfold is_size, size_modulus; lia | vm_compute; reflexivity].
Qed.

Lemma frag_pool_valid : valid_pool frag_pool.
Proof.
  destruct (reachable_inv frag_pool frag_pool_reachable) as [Hshape Hinv].
  split; [exact Hshape | split; [exact Hinv|]].
  unfold region_ok, frag_pool, size_modulus; simpl. lia.
Qed.

(** C9.  Some pool a program can reach turns down a request although
    [size <= block_size * free_blocks]: after runs of 2, 3 and 3 blocks are
    reserved and the first and third given back, five blocks are free, in
    runs of 2 and 3; a request of 64 bytes needs [ceil (64 / 16) = 4]
    blocks in a row, no such run exists, and [pool_alloc] returns [NULL]. *)
Theorem fragmentation_failure :
  exists p size,
    reachable p
    /\ 0 < size <= block_size p * free_blocks p
    /\ num_blocks_needed p size = ceil_div size (block_size p)
    /\ (forall i, ~ run_fits p (ceil_div size (block_size p)) i)
    /\ pool_alloc (Some p) size = (NULL, Some p).
Proof.
  exists frag_pool, 64.
  split; [exact frag_pool_reachable|].
  split; [simpl; lia|].
  split; [reflexivity|].
  split; [|vm_compute; reflexivity].
  change (ceil_div 64 (block_size frag_pool)) with 4.
  intros i (Hi & Hfit & Hrun). simpl in Hfit.
  assert (Hcases : i = 0 \/ i = 1 \/ i = 2 \/ i = 3 \/ i = 4) by lia.
  destruct Hcases as [-> | [-> | [-> | [-> | ->]]]].
  - specialize (Hrun 2 ltac:(lia)). discriminate Hrun.
  - specialize (Hrun 2 ltac:(lia)). discriminate Hrun.
  - specialize (Hrun 2 ltac:(lia)). discriminate Hrun.
  - specialize (Hrun 3 ltac:(lia)). discriminate Hrun.
  - specialize (Hrun 4 ltac:(lia)). discriminate Hrun.
Qed.

End Fragmentation.

(** * The theorems at work on the scenarios *)

Section Instances.

Lemma small_is_size z : 0 <= z < 2 ^ 32 -> is_size z.
Proof. unfold is_size, size_modulus. lia. Qed.

Lemma reachable_table_invariant_witness :
  reachable frag_pool /\ table_invariant frag_pool.
Proof.
  split; [exact frag_pool_reachable|].
  apply (reachable_table_invariant frag_pool). exact frag_pool_reachable.
Defined.

Lemma init_alloc_free_restores_witness :
  exists p2,
    pool_free (snd (pool_alloc (Some demo_pool) 64)) 4096 = Some p2
    /\ free_blocks p2 = 320
    /\ Z.of_nat (length (allocation_sizes p2)) = 320
    /\ Forall (fun x => x = 0) (allocation_sizes p2)
    /\ p2 = demo_pool.
Proof.
  apply (init_alloc_free_restores true true 4096 1 320 64 demo_pool 4096
           (snd (pool_alloc (Some demo_pool) 64)));
    try (apply small_is_size; lia); try lia.
  - reflexivity.
  - vm_compute. reflexivity.
  - unfold NULL. lia.
Defined.

Lemma pool_alloc_first_fit_witness :
  exists i p',
    pool_alloc (Some frag_pool) 40
    = (memory frag_pool + i * block_size frag_pool, Some p')
    /\ entry (allocation_sizes p') i = 3
    /\ free_blocks p' = 5 - 3.
Proof.
  assert (Hfits : exists j, run_fits frag_pool
                              (num_blocks_needed frag_pool 40) j).
  { exists 5. change (num_blocks_needed frag_pool 40) with 3.
    split; [lia | split; [simpl; lia|]]. intros k Hk.
    assert (Hcases : k = 5 \/ k = 6 \/ k = 7) by lia.
    destruct Hcases as [-> | [-> | ->]]; reflexivity. }
  destruct (pool_alloc_first_fit frag_pool 40 frag_pool_valid
              ltac:(simpl; lia) Hfits)
    as (i & p' & _ & _ & Hcall & Hhead & _ & _ & _ & Hfree & _).
  exists i, p'. repeat split; assumption.
Defined.

Lemma pool_alloc_rejects_witness :
  fst (pool_alloc (Some frag_pool) 81) = NULL.
Proof.
  apply (pool_alloc_rejects frag_pool 81).
  - apply frag_pool_valid.
  - apply small_is_size. lia.
  - right. simpl. lia.
Defined.

Lemma pool_alloc_failure_keeps_pool_witness :
  pool_alloc (Some frag_pool) 64 = (NULL, Some frag_pool).
Proof.
  apply (pool_alloc_failure_keeps_pool frag_pool 64 frag_pool_valid).
  - apply small_is_size. lia.
  - vm_compute. reflexivity.
Defined.

Lemma pool_free_ignores_witness :
  pool_free (Some frag_pool) 4097 = Some frag_pool
  /\ pool_free (pool_free (Some frag_pool) 4128) 4128
     = pool_free (Some frag_pool) 4128.
Proof.
  split.
  - apply (proj1 (pool_free_ignores frag_pool 4097 (proj1 frag_pool_valid))).
    left. vm_compute. discriminate.
  - apply (proj2 (pool_free_ignores frag_pool 4128 (proj1 frag_pool_valid))).
Defined.

Lemma pool_init_outcome_witness :
  exists p, pool_init true true 4096 1 320 = InitPool p.
Proof.
  destruct (pool_init_outcome true true 4096 1 320) as (_ & _ & Hsome).
  - apply small_is_size. lia.
  - apply Hsome; [unfold sizeof_ssize_t, size_modulus; lia |].
    vm_compute. discriminate.
Defined.

(** The second of two requests that together exceed the capacity fails and
    leaves the first in place. *)
Example second_request_fails :
  let p1 := {| memory := 4096; block_size := 1; num_blocks := 320;
               free_blocks := 120;
               allocation_sizes :=
                 200 :: replicate 199%nat (-1) ++ replicate 120%nat 0 |} in
  pool_alloc (Some demo_pool) 200 = (4096, Some p1)
  /\ pool_alloc (Some p1) 200 = (NULL, Some p1).
Proof. split; vm_compute; reflexivity. Qed.

(** A pointer into a continuation block, one before the region, and one
    to a head whose run length is corrupted are all ignored. *)
Example free_of_continuation :
  pool_free (Some frag_pool) (4096 + 3 * 16) = Some frag_pool.
Proof. vm_compute. reflexivity. Qed.

Example free_before_region :
  pool_free (Some frag_pool) (4096 - 16) = Some frag_pool.
Proof. vm_compute. reflexivity. Qed.

Example free_of_corrupt_head :
  entry (allocation_sizes corrupt_pool) 2 = 9
  /\ pool_free (Some corrupt_pool) (4096 + 2 * 16) = Some corrupt_pool.
Proof. split; vm_compute; reflexivity. Qed.

(** A pool without a handle: both calls do nothing. *)
Example no_pool : pool_alloc None 16 = (NULL, None) /\ pool_free None 4096 = None.
Proof. split; reflexivity. Qed.

End Instances.

(** * Freeing what was allocated *)

Section RoundTrip.

(** The pointer to block [r] of a valid pool leads [pool_free] back to
    block [r]. *)
Lemma block_pointer_index p r :
  valid_pool p -> 0 <= r < num_blocks p ->
  wrap (memory p + r * block_size p - memory p) mod block_size p = 0
  /\ wrap (memory p + r * block_size p - memory p) / block_size p = r.
Proof.
  intros Hvalid Hr.
  destruct (valid_block_address p Hvalid r Hr) as [Haddr _].
  destruct Hvalid as ((Hm & Hm0 & HB & HB0 & _) & _ & Hreg).
  unfold region_ok in Hreg. unfold is_size, NULL in *.
  replace (memory p + r * block_size p - memory p) with (r * block_size p)
    by lia.
  rewrite wrap_small by (unfold is_size; nia).
  split; [apply Z.mod_mul; lia | apply Z.div_mul; lia].
Qed.

(** Giving back the run that was just reserved restores the pool. *)
Lemma release_reserve p r needed :
  pool_shape p -> table_invariant p ->
  is_size needed -> 1 <= needed -> 0 <= r -> r + needed <= num_blocks p ->
  accepts p needed r ->
  release (reserve p r needed) r needed = p.
Proof.
  intros Hshape Hinv Hsz Hpos Hr Hfit Hacc.
  pose proof Hshape as (Hm & Hm0 & HB & HB0 & HN0 & HN & HF & Hlen & Hty).
  unfold sizeof_ssize_t, size_modulus in HN.
  assert (Hcnt : count_zero (mark_run (allocation_sizes p) r needed)
                 = free_blocks p - needed).
  { destruct Hinv as (_ & _ & ->).
    apply count_zero_mark_run; unfold ssize_half, size_modulus; try lia.
    apply Hacc. }
  pose proof (count_zero_bounds (mark_run (allocation_sizes p) r needed))
    as Hbound.
  unfold release, reserve; simpl.
  rewrite (to_size_small needed) by exact Hsz.
  assert (Htbl : write_run 0 (mark_run (allocation_sizes p) r needed) r 0
                   (Z.to_nat needed)
                 = allocation_sizes p).
  { apply table_ext.
    - now rewrite length_write_run, length_mark_run.
    - intros i Hi. rewrite length_write_run, length_mark_run in Hi.
      rewrite entry_write_run;
        rewrite ?length_mark_run; unfold size_modulus; try lia.
      rewrite entry_mark_run by (unfold ssize_half, size_modulus; lia).
      destruct Hacc as [_ Hrun].
      pose proof (Hrun (i - r)) as Hzero.
      replace (r + (i - r)) with i in Hzero by lia.
      zcases; lia. }
  assert (Hfree : wrap (wrap (free_blocks p - needed) + needed)
                  = free_blocks p).
  { rewrite (wrap_small (free_blocks p - needed))
      by (unfold is_size, size_modulus in *; lia).
    replace (free_blocks p - needed + needed) with (free_blocks p) by lia.
    now apply wrap_small. }
  rewrite Htbl, Hfree. destruct p; reflexivity.
Qed.

Lemma alloc_then_free p size ptr st :
  valid_pool p -> is_size size ->
  pool_alloc (Some p) size = (ptr, st) -> ptr <> NULL ->
  pool_free st ptr = Some p.
Proof.
  intros Hvalid Hsize Hcall Hptr.
  pose proof Hvalid as (Hshape & Hinv & _).
  pose proof (num_blocks_needed_is_size p Hshape size) as Hneeded.
  destruct (pool_alloc_cases p Hshape Hinv size Hsize)
    as [[Hsame _] | (r & _ & Hr & Hfit & Hacc & _ & Hres)].
  { rewrite Hsame in Hcall. injection Hcall as <- _. contradiction. }
  rewrite Hres in Hcall. injection Hcall as <- <-.
  destruct (valid_block_address p Hvalid r Hr) as [Haddr _].
  destruct (block_pointer_index p r Hvalid Hr) as [Hmod Hdiv].
  rewrite Haddr.
  destruct (Z.eq_dec (num_blocks_needed p size) 0) as [Hz | Hnz].
  - rewrite Hz, reserve_nothing by (try apply Hshape; apply Hacc).
    destruct (pool_free_cases p (memory p + r * block_size p) Hshape)
      as [[Hsame _] | (_ & _ & _ & Hn & _)]; [exact Hsame|].
    cbv zeta in Hn. rewrite Hdiv in Hn. destruct Hacc as [Hzero _]. lia.
  - set (needed := num_blocks_needed p size) in *.
    assert (Hpos : 1 <= needed) by (unfold is_size in Hneeded; lia).
    destruct (reserve_inv p r needed Hshape Hinv Hneeded Hpos)
      as [Hshape1 _]; [lia | lia | exact Hacc |].
    pose proof Hshape as (_ & _ & _ & _ & _ & HN & _ & Hlen & _).
    unfold sizeof_ssize_t, size_modulus in HN.
    assert (Hhead : entry (mark_run (allocation_sizes p) r needed) r = needed).
    { rewrite entry_mark_run by (unfold ssize_half, size_modulus; lia).
      now rewrite Z.eqb_refl. }
    pose proof (pool_free_cases (reserve p r needed)
                  (memory p + r * block_size p) Hshape1) as Hfree.
    cbv zeta in Hfree.
    change (memory (reserve p r needed)) with (memory p) in Hfree.
    change (block_size (reserve p r needed)) with (block_size p) in Hfree.
    change (num_blocks (reserve p r needed)) with (num_blocks p) in Hfree.
    change (allocation_sizes (reserve p r needed))
      with (mark_run (allocation_sizes p) r needed) in Hfree.
    rewrite Hdiv, Hmod, Hhead in Hfree.
    destruct Hfree as [[_ Hbad] | (_ & _ & _ & _ & _ & Hrel)].
    { exfalso. destruct (valid_block_address p Hvalid r Hr) as [_ Hnn].
      destruct Hbad as [? | [? | [? | [? | ?]]]]; lia. }
    rewrite Hrel. f_equal. now apply release_reserve.
Qed.

(** X1.  In a valid pool, [pool_free] of the pointer a successful
    [pool_alloc] has just returned leaves the pool exactly as it was before
    the allocation. *)
Theorem pool_free_undoes_pool_alloc p size :
  valid_pool p -> is_size size ->
  fst (pool_alloc (Some p) size) <> NULL ->
  pool_free (snd (pool_alloc (Some p) size)) (fst (pool_alloc (Some p) size))
  = Some p.
Proof.
  intros Hvalid Hsize Hptr.
  apply (alloc_then_free p size _ _ Hvalid Hsize); [|exact Hptr].
  now destruct (pool_alloc (Some p) size).
Qed.

End RoundTrip.

(** * What a call changes, and what it keeps *)

Section Effects.

Lemma pool_alloc_fields p size ptr p' :
  pool_alloc (Some p) size = (ptr, Some p') ->
  memory p' = memory p /\ block_size p' = block_size p
  /\ num_blocks p' = num_blocks p
  /\ length (allocation_sizes p') = length (allocation_sizes p).
Proof.
  unfold pool_alloc.
  destruct (size =? 0); [intros [= _ <-]; tauto|].
  destruct (_ <? size); [intros [= _ <-]; tauto|].
  destruct (find_run _ _ _ _) as [r|]; [|intros [= _ <-]; tauto].
  intros [= _ <-]. simpl.
  now rewrite length_write_run, length_store.
Qed.



Lemma pool_free_head p idx n :
  valid_pool p -> 0 <= idx < num_blocks p ->
  entry (allocation_sizes p) idx = n -> 0 < n ->
  exists p',
    pool_free (Some p) (memory p + idx * block_size p) = Some p'
    /\ (forall k, idx <= k < idx + n -> entry (allocation_sizes p') k = 0)
    /\ (forall k, 0 <= k -> ~ idx <= k < idx + n ->
          entry (allocation_sizes p') k = entry (allocation_sizes p) k)
    /\ free_blocks p' = free_blocks p + n.
Proof.
  intros Hvalid Hidx Hn Hpos.
  pose proof Hvalid as (Hshape & Hinv & _).
  pose proof Hshape as (_ & _ & _ & _ & _ & HN & _ & Hlen & _).
  unfold sizeof_ssize_t, size_modulus in HN.
  destruct (block_pointer_index p idx Hvalid Hidx) as [Hmod Hdiv].
  destruct (valid_block_address p Hvalid idx Hidx) as [_ Hnn].
  pose proof Hinv as (Hruns & _ & Hcount).
  destruct (Hruns idx n Hidx Hn Hpos) as [Hend Hcont].
  pose proof (pool_free_cases p (memory p + idx * block_size p) Hshape)
    as Hfree.
  cbv zeta in Hfree. rewrite Hdiv, Hmod, Hn in Hfree.
  destruct Hfree as [[_ Hbad] | (_ & _ & _ & _ & _ & Hrel)].
  { exfalso. destruct Hbad as [? | [? | [? | [? | ?]]]]; lia. }
  exists (release p idx n). split; [exact Hrel|].
  assert (Hts : to_size n = n)
    by (apply to_size_small; unfold is_size, size_modulus; lia).
  assert (Hentry : forall j, 0 <= j ->
            entry (allocation_sizes (release p idx n)) j
            = if (idx + 0 <=? j) && (j <? idx + 0 + Z.of_nat (Z.to_nat n))
              then 0 else entry (allocation_sizes p) j).
  { intros j Hj. unfold release; simpl. rewrite Hts.
    apply entry_write_run; unfold size_modulus; lia. }
  split; [|split].
  - intros k Hk. rewrite Hentry by lia. zcases; lia.
  - intros k Hk Hout. rewrite Hentry by lia. zcases; lia.
  - destruct (release_inv p idx n Hshape Hinv Hidx Hn Hpos)
      as [_ (_ & _ & Hcount')].
    rewrite Hcount'. unfold release; simpl. rewrite Hts, Hcount.
    rewrite (count_zero_write_run _ _ _ _ _ false);
      unfold size_modulus; try lia.
    + simpl. lia.
    + intros j Hj. destruct (Z.eq_dec j idx) as [-> | Hne].
      * rewrite Hn. destruct (Z.eqb_spec n 0); [lia | reflexivity].
      * rewrite Hcont by lia. reflexivity.
Qed.

(** X2.  In a valid pool, [pool_free] of the pointer to a block that heads
    a run of [n] blocks zeroes the entries of the run, keeps every other
    entry, and adds [n] to [free_blocks]. *)
Theorem pool_free_releases p idx n :
  valid_pool p -> 0 <= idx < num_blocks p ->
  entry (allocation_sizes p) idx = n -> 0 < n ->
  exists p',
    pool_free (Some p) (memory p + idx * block_size p) = Some p'
    /\ (forall k, idx <= k < idx + n -> entry (allocation_sizes p') k = 0)
    /\ (forall k, 0 <= k -> ~ idx <= k < idx + n ->
          entry (allocation_sizes p') k = entry (allocation_sizes p) k)
    /\ free_blocks p' = free_blocks p + n.
Proof. exact (pool_free_head p idx n). Qed.

(** X15.  A valid pool stays valid through every call of [pool_alloc] and
    of [pool_free]: the shape, the table invariant and the memory region
    are kept. *)
Theorem valid_pool_kept p size ptr :
  valid_pool p -> is_size size ->
  (forall q p', pool_alloc (Some p) size = (q, Some p') -> valid_pool p')
  /\ (forall p', pool_free (Some p) ptr = Some p' -> valid_pool p').
Proof.
  intros Hvalid Hsize. split.
  - intros q p' Hcall. exact (pool_alloc_valid p size q p' Hvalid Hsize Hcall).
  - intros p' Hcall. exact (pool_free_valid p ptr p' Hvalid Hcall).
Qed.

End Effects.

(** * Where an allocation lies *)

Section Placement.

(** When line 62 yields at least one block, it did not wrap and the blocks
    hold the request. *)
Lemma needed_covers p size :
  pool_shape p -> is_size size -> 1 <= num_blocks_needed p size ->
  size + block_size p - 1 < size_modulus
  /\ size <= num_blocks_needed p size * block_size p.
Proof.
  intros (_ & _ & HB & HB0 & _) Hsize Hpos.
  assert (Hfit : size + block_size p - 1 < size_modulus).
  { destruct (Z_lt_ge_dec (size + block_size p - 1) size_modulus)
      as [Hlt | Hge]; [exact Hlt|].
    exfalso. unfold num_blocks_needed, wrap in Hpos.
    replace (size + block_size p - 1)
      with (size + block_size p - 1 - size_modulus + 1 * size_modulus)
      in Hpos by lia.
    rewrite Z.mod_add in Hpos by (unfold size_modulus; lia).
    rewrite Z.mod_small in Hpos by (unfold is_size in *; lia).
    rewrite Z.div_small in Hpos by (unfold is_size in *; lia).
    lia. }
  split; [exact Hfit|].
  rewrite num_blocks_needed_exact by (unfold is_size in *; lia).
  apply ceil_div_spec. exact HB0.
Qed.

Lemma alloc_inside_region p size ptr st :
  valid_pool p -> is_size size ->
  pool_alloc (Some p) size = (ptr, st) -> ptr <> NULL ->
  memory p <= ptr
  /\ ptr + size <= memory p + block_size p * num_blocks p.
Proof.
  intros Hvalid Hsize Hcall Hptr.
  pose proof Hvalid as (Hshape & Hinv & _).
  pose proof Hshape as (_ & _ & HB & HB0 & _).
  pose proof (valid_capacity_exact p Hvalid) as Hcap.
  pose proof (valid_free_le p Hvalid) as HF.
  pose proof (num_blocks_needed_is_size p Hshape size) as Hneeded.
  destruct (pool_alloc_cases p Hshape Hinv size Hsize)
    as [[Hsame _] | (r & Hpass & Hr & Hfit & Hacc & Hmin & Hres)].
  { rewrite Hsame in Hcall. injection Hcall as <- _. contradiction. }
  rewrite Hres in Hcall. injection Hcall as <- _.
  destruct (valid_block_address p Hvalid r Hr) as [Haddr _].
  rewrite Haddr, Hcap in *.
  destruct (Z.eq_dec (num_blocks_needed p size) 0) as [Hz | Hnz].
  - assert (Hr0 : r = 0).
    { destruct (Z.eq_dec r 0) as [E | E]; [exact E|].
      exfalso. apply (Hmin 0); [lia|]. split; [|intros k _];
        now apply (valid_zero_needed_all_free p Hvalid size). }
    subst r. nia.
  - destruct (needed_covers p size Hshape Hsize) as [_ Hcover];
      [unfold is_size in Hneeded; lia|].
    nia.
Qed.

(** X4.  In a valid pool the [size] bytes at the pointer a successful
    [pool_alloc] returns lie inside the caller's region of
    [block_size * num_blocks] bytes. *)
Theorem pool_alloc_inside_region p size :
  valid_pool p -> is_size size ->
  fst (pool_alloc (Some p) size) <> NULL ->
  memory p <= fst (pool_alloc (Some p) size)
  /\ fst (pool_alloc (Some p) size) + size
     <= memory p + block_size p * num_blocks p.
Proof.
  intros Hvalid Hsize Hptr.
  apply (alloc_inside_region p size _ (snd (pool_alloc (Some p) size)));
    try assumption.
  now destruct (pool_alloc (Some p) size).
Qed.

(** The block a byte of an allocation lies in was free before the call and
    is in use after it. *)
Lemma alloc_byte_block p size ptr p' a :
  valid_pool p -> is_size size ->
  size + block_size p - 1 < size_modulus ->
  pool_alloc (Some p) size = (ptr, Some p') -> ptr <> NULL ->
  ptr <= a < ptr + size ->
  0 <= (a - memory p) / block_size p < num_blocks p
  /\ entry (allocation_sizes p) ((a - memory p) / block_size p) = 0
  /\ entry (allocation_sizes p') ((a - memory p) / block_size p) <> 0.
Proof.
  intros Hvalid Hsize Hnowrap Hcall Hptr Ha.
  pose proof Hvalid as (Hshape & Hinv & _).
  pose proof Hshape as (_ & _ & HB & HB0 & _ & HN & _ & Hlen & _).
  unfold sizeof_ssize_t, size_modulus in HN.
  pose proof (num_blocks_needed_is_size p Hshape size) as Hneeded.
  destruct (pool_alloc_cases p Hshape Hinv size Hsize)
    as [[Hsame _] | (r & Hpass & Hr & Hfit & Hacc & _ & Hres)].
  { rewrite Hsame in Hcall. injection Hcall as <- _. contradiction. }
  rewrite Hres in Hcall. injection Hcall as <- <-.
  destruct (valid_block_address p Hvalid r Hr) as [Haddr _].
  rewrite Haddr in Ha.
  pose proof (ceil_div_spec size (block_size p) HB0) as Hceil.
  rewrite <- num_blocks_needed_exact in Hceil
    by (unfold is_size in *; lia).
  set (needed := num_blocks_needed p size) in *.
  assert (Hpos : 1 <= needed) by nia.
  set (b := (a - memory p) / block_size p).
  assert (Hb : r <= b < r + needed).
  { unfold b. split.
    - apply Z.div_le_lower_bound; [exact HB0 | nia].
    - apply Z.div_lt_upper_bound; [exact HB0 | nia]. }
  split; [lia|]. split.
  - destruct Hacc as [_ Hrun]. replace b with (r + (b - r)) by lia.
    apply Hrun. lia.
  - simpl. rewrite entry_mark_run
      by (unfold ssize_half, size_modulus; lia).
    zcases; lia.
Qed.

(** X5.  In a valid pool, when [size + block_size - 1] does not wrap, every
    byte of the [size] bytes at the pointer a successful [pool_alloc]
    returns lies in a block of the table that was free before the call and
    is marked in use after it. *)
Theorem allocated_bytes_were_free p size ptr p' a :
  valid_pool p -> is_size size ->
  size + block_size p - 1 < size_modulus ->
  pool_alloc (Some p) size = (ptr, Some p') -> ptr <> NULL ->
  ptr <= a < ptr + size ->
  0 <= (a - memory p) / block_size p < num_blocks p
  /\ entry (allocation_sizes p) ((a - memory p) / block_size p) = 0
  /\ entry (allocation_sizes p') ((a - memory p) / block_size p) <> 0.
Proof. exact (alloc_byte_block p size ptr p' a). Qed.

(** X6.  In a valid pool, two successful calls of [pool_alloc] in a row
    return ranges of bytes that do not overlap (the sizes being such that
    line 62 does not wrap). *)
Theorem consecutive_allocations_disjoint p size1 ptr1 p1 size2 ptr2 p2 :
  valid_pool p -> is_size size1 -> is_size size2 ->
  size1 + block_size p - 1 < size_modulus ->
  size2 + block_size p - 1 < size_modulus ->
  pool_alloc (Some p) size1 = (ptr1, Some p1) -> ptr1 <> NULL ->
  pool_alloc (Some p1) size2 = (ptr2, Some p2) -> ptr2 <> NULL ->
  ptr1 + size1 <= ptr2 \/ ptr2 + size2 <= ptr1.
Proof.
  intros Hvalid Hs1 Hs2 Hw1 Hw2 Hcall1 Hptr1 Hcall2 Hptr2.
  pose proof (pool_alloc_valid p size1 ptr1 p1 Hvalid Hs1 Hcall1) as Hvalid1.
  destruct (pool_alloc_fields p size1 ptr1 p1 Hcall1) as (Hm & HB & _).
  destruct (Z_le_gt_dec (ptr1 + size1) ptr2) as [Hle | Hgt]; [now left|].
  destruct (Z_le_gt_dec (ptr2 + size2) ptr1) as [Hle | Hgt']; [now right|].
  exfalso.
  assert (Hpos1 : 0 < size1).
  { destruct (Z.eq_dec size1 0) as [-> | Hne]; [|unfold is_size in Hs1; lia].
    simpl in Hcall1. injection Hcall1 as <- _. contradiction. }
  assert (Hpos2 : 0 < size2).
  { destruct (Z.eq_dec size2 0) as [-> | Hne]; [|unfold is_size in Hs2; lia].
    simpl in Hcall2. injection Hcall2 as <- _. contradiction. }
  set (a := Z.max ptr1 ptr2).
  destruct (alloc_byte_block p size1 ptr1 p1 a Hvalid Hs1 Hw1 Hcall1 Hptr1)
    as (_ & _ & Hused); [unfold a; lia|].
  rewrite <- HB in Hw2.
  destruct (alloc_byte_block p1 size2 ptr2 p2 a Hvalid1 Hs2 Hw2 Hcall2 Hptr2)
    as (_ & Hwas_free & _); [unfold a; lia|].
  rewrite Hm, HB in Hwas_free. contradiction.
Qed.


End Placement.

(** * Every block is accounted for *)

Section Accounting.

Implicit Types (tbl : list Z) (i j k v base : Z) (n : nat).

Lemma sum_heads_store tbl i v :
  0 <= i < Z.of_nat (length tbl) ->
  sum_heads (store tbl i v)
  = sum_heads tbl - Z.max (entry tbl i) 0 + Z.max v 0.
Proof.
  unfold store, entry. intros Hi.
  assert (Hn : (Z.to_nat i < length tbl)%nat) by lia.
  clear Hi. revert Hn. generalize (Z.to_nat i) as m.
  induction tbl as [|x tbl IH]; intros m Hm; simpl in Hm; [lia|].
  destruct m as [|m]; simpl.
  - lia.
  - rewrite IH by lia. lia.
Qed.

(** Writing a value that is no head over entries that are no heads keeps
    the sum of the run lengths. *)
Lemma sum_heads_write_run v tbl base k n :
  v <= 0 -> 0 <= base -> 0 <= k ->
  base + k + Z.of_nat n <= Z.of_nat (length tbl) ->
  Z.of_nat (length tbl) <= size_modulus ->
  (forall j, base + k <= j < base + k + Z.of_nat n -> entry tbl j <= 0) ->
  sum_heads (write_run v tbl base k n) = sum_heads tbl.
Proof.
  intros Hv Hbase. revert tbl k.
  induction n as [|n IH]; intros tbl k Hk Hfit Hlen Hrun; simpl write_run.
  - reflexivity.
  - rewrite wrap_small by (unfold is_size; lia).
    rewrite IH; rewrite ?length_store; try lia.
    + rewrite sum_heads_store by lia.
      pose proof (Hrun (base + k)). lia.
    + intros j Hj. rewrite entry_store_ne by lia. apply Hrun. lia.
Qed.

Lemma accounted_mark_run tbl r needed :
  1 <= needed < ssize_half -> 0 <= r ->
  r + needed <= Z.of_nat (length tbl) ->
  Z.of_nat (length tbl) <= size_modulus ->
  (forall k, 0 <= k < needed -> entry tbl (r + k) = 0) ->
  accounted tbl -> accounted (mark_run tbl r needed).
Proof.
  intros Hn Hr Hfit Hlen Hfree Hacc. unfold accounted in *.
  rewrite length_mark_run, count_zero_mark_run by assumption.
  unfold mark_run.
  rewrite sum_heads_write_run; rewrite ?length_store; try lia.
  - rewrite sum_heads_store by lia.
    rewrite to_ssize_small by lia.
    pose proof (Hfree 0) as H0. rewrite Z.add_0_r in H0.
    rewrite H0 by lia. lia.
  - intros j Hj. rewrite entry_store_ne by lia.
    replace j with (r + (j - r)) by lia. rewrite Hfree by lia. lia.
Qed.

Lemma accounted_release tbl idx m :
  0 <= idx -> 0 < m -> idx + m <= Z.of_nat (length tbl) ->
  Z.of_nat (length tbl) <= size_modulus ->
  entry tbl idx = m ->
  (forall k, idx + 1 <= k <= idx + m - 1 -> entry tbl k = -1) ->
  accounted tbl -> accounted (write_run 0 tbl idx 0 (Z.to_nat m)).
Proof.
  intros Hidx Hm Hfit Hlen Hhead Hcont Hacc. unfold accounted in *.
  rewrite length_write_run.
  rewrite (count_zero_write_run _ _ _ _ _ false); try lia.
  - replace (Z.to_nat m) with (S (Z.to_nat (m - 1))) by lia.
    simpl write_run. replace (idx + 0) with idx by lia.
    rewrite wrap_small by (unfold is_size; lia).
    rewrite sum_heads_write_run; rewrite ?length_store; try lia.
    + rewrite sum_heads_store by lia.
      rewrite Hhead. simpl. lia.
    + intros j Hj. rewrite entry_store_ne by lia. rewrite Hcont by lia. lia.
  - intros j Hj. destruct (Z.eq_dec j idx) as [-> | Hne].
    + rewrite Hhead. destruct (Z.eqb_spec m 0); [lia | reflexivity].
    + rewrite Hcont by lia. reflexivity.
Qed.

Lemma owned_mark_run tbl r needed :
  1 <= needed < ssize_half -> 0 <= r ->
  r + needed <= Z.of_nat (length tbl) ->
  Z.of_nat (length tbl) <= size_modulus ->
  (forall k, 0 <= k < needed -> entry tbl (r + k) = 0) ->
  continuations_owned tbl -> continuations_owned (mark_run tbl r needed).
Proof.
  intros Hn Hr Hfit Hlen Hfree Hown k Hk Hcontk.
  rewrite length_mark_run in Hk.
  assert (Hentry : forall j, 0 <= j ->
            entry (mark_run tbl r needed) j
            = if j =? r then needed
              else if (r <? j) && (j <? r + needed) then -1
              else entry tbl j)
    by (intros j Hj; now apply entry_mark_run).
  assert (Hzero : forall j, r <= j < r + needed -> entry tbl j = 0).
  { intros j Hj. replace j with (r + (j - r)) by lia. apply Hfree. lia. }
  rewrite Hentry in Hcontk by lia.
  destruct (Z.eq_dec k r) as [-> | Hkr].
  { rewrite Z.eqb_refl in Hcontk. lia. }
  destruct (Z_lt_ge_dec r k) as [Hlo | Hlo].
  - destruct (Z_lt_ge_dec k (r + needed)) as [Hhi | Hhi].
    + exists r. rewrite Hentry, Z.eqb_refl by lia. lia.
    + assert (Hold : entry tbl k = -1) by (revert Hcontk; zcases; lia).
      destruct (Hown k Hk Hold) as (i & Hi & Hrun).
      exists i. rewrite Hentry by lia. pose proof (Hzero i).
      zcases; lia.
  - assert (Hold : entry tbl k = -1) by (revert Hcontk; zcases; lia).
    destruct (Hown k Hk Hold) as (i & Hi & Hrun).
    exists i. rewrite Hentry by lia. pose proof (Hzero i).
    zcases; lia.
Qed.

Lemma owned_release tbl idx m :
  0 <= idx -> 0 < m -> idx + m <= Z.of_nat (length tbl) ->
  Z.of_nat (length tbl) <= size_modulus ->
  entry tbl idx = m ->
  (forall k, idx + 1 <= k <= idx + m - 1 -> entry tbl k = -1) ->
  continuations_owned tbl ->
  continuations_owned (write_run 0 tbl idx 0 (Z.to_nat m)).
Proof.
  intros Hidx Hm Hfit Hlen Hhead Hcont Hown k Hk Hcontk.
  rewrite length_write_run in Hk.
  assert (Hentry : forall j, 0 <= j ->
            entry (write_run 0 tbl idx 0 (Z.to_nat m)) j
            = if (idx + 0 <=? j) && (j <? idx + 0 + Z.of_nat (Z.to_nat m))
              then 0 else entry tbl j)
    by (intros j Hj; apply entry_write_run; lia).
  rewrite Hentry in Hcontk by lia.
  assert (Hold : entry tbl k = -1 /\ ~ idx <= k < idx + m)
    by (revert Hcontk; zcases; lia).
  destruct Hold as [Hold Hout].
  destruct (Hown k Hk Hold) as (i & Hi & Hrun).
  exists i. rewrite Hentry by lia.
  destruct (Z.eq_dec i idx) as [-> | Hne]; [zcases; lia|].
  pose proof (Hcont i). zcases; lia.
Qed.

Lemma reachable_accounted_owned p :
  reachable p ->
  accounted (allocation_sizes p) /\ continuations_owned (allocation_sizes p).
Proof.
  induction 1 as [pm tm mem bs nb p Hm Hb Hn Hinit
                 | p size ptr p' Hreach IH Hsize Hcall
                 | p ptr p' Hreach IH Hptr Hcall].
  - destruct (pool_init_shape _ _ _ _ _ _ Hm Hb Hn Hinit) as (-> & _).
    simpl. split.
    + unfold accounted. rewrite count_zero_replicate, length_replicate.
      assert (Hs : forall m, sum_heads (replicate m 0) = 0)
        by (induction m as [|m IHm]; simpl; lia).
      rewrite Hs. lia.
    + intros k _ Hk. rewrite entry_replicate in Hk. lia.
  - destruct (reachable_inv p Hreach) as [Hshape Hinv].
    pose proof Hshape as (_ & _ & _ & _ & _ & HN & HF & Hlen & _).
    unfold sizeof_ssize_t, size_modulus in HN.
    pose proof (num_blocks_needed_is_size p Hshape size) as Hneeded.
    destruct (pool_alloc_cases p Hshape Hinv size Hsize)
      as [[Hsame _] | (r & _ & Hr & Hfit & Hacc & _ & Hres)].
    { rewrite Hsame in Hcall. injection Hcall as _ <-. exact IH. }
    rewrite Hres in Hcall. injection Hcall as _ <-.
    destruct (Z.eq_dec (num_blocks_needed p size) 0) as [Hz | Hnz].
    { rewrite Hz, reserve_nothing; [exact IH | exact HF | apply Hacc]. }
    destruct IH as [IHa IHo]. simpl. split.
    + apply accounted_mark_run; try assumption;
        unfold is_size, ssize_half, size_modulus in *; try lia. apply Hacc.
    + apply owned_mark_run; try assumption;
        unfold is_size, ssize_half, size_modulus in *; try lia. apply Hacc.
  - destruct (reachable_inv p Hreach) as [Hshape Hinv].
    pose proof Hshape as (_ & _ & _ & _ & _ & HN & HF & Hlen & _).
    unfold sizeof_ssize_t, size_modulus in HN.
    destruct (pool_free_cases p ptr Hshape)
      as [[Hsame _] | (_ & _ & Hidx & Hn & Hfit & Hrel)].
    { rewrite Hsame in Hcall. injection Hcall as <-. exact IH. }
    rewrite Hrel in Hcall. injection Hcall as <-.
    cbv zeta in *.
    set (idx := wrap (ptr - memory p) / block_size p) in *.
    set (m := entry (allocation_sizes p) idx) in *.
    destruct Hinv as (Hruns & _).
    destruct (Hruns idx m Hidx eq_refl Hn) as [_ Hcont].
    destruct IH as [IHa IHo]. unfold release; simpl.
    rewrite (to_size_small m) by (unfold is_size, size_modulus; lia).
    split.
    + apply accounted_release; try assumption; unfold size_modulus; lia.
    + apply owned_release; try assumption; unfold size_modulus; lia.
Qed.

(** X8.  In every state a pool reaches, the free blocks and the blocks of
    the live runs make up the pool: [free_blocks] plus the sum of the head
    values is [num_blocks]. *)
Theorem reachable_blocks_accounted p :
  reachable p ->
  free_blocks p + sum_heads (allocation_sizes p) = num_blocks p.
Proof.
  intros Hreach.
  destruct (reachable_inv p Hreach)
    as [(_ & _ & _ & _ & _ & _ & _ & Hlen & _) (_ & _ & Hcount)].
  destruct (reachable_accounted_owned p Hreach) as [Hacc _].
  unfold accounted in Hacc. lia.
Qed.

(** X9.  In every state a pool reaches, each continuation block ([-1])
    lies in the run of a head at a lower index: no [-1] stands alone. *)
Theorem reachable_continuations_owned p k :
  reachable p -> 0 <= k < num_blocks p ->
  entry (allocation_sizes p) k = -1 ->
  exists i, 0 <= i < k
            /\ 0 < entry (allocation_sizes p) i
            /\ k < i + entry (allocation_sizes p) i.
Proof.
  intros Hreach Hk Hcont.
  destruct (reachable_inv p Hreach)
    as [(_ & _ & _ & _ & _ & _ & _ & Hlen & _) _].
  destruct (reachable_accounted_owned p Hreach) as [_ Hown].
  destruct (Hown k ltac:(lia) Hcont) as (i & Hi & Hrun).
  exists i. repeat split; lia.
Qed.

End Accounting.

(** * The heap *)

Section Heap.

Lemma malloc_succeeds_drop n k h h' :
  supply h' = drop k (supply h) ->
  malloc_succeeds n h' = malloc_succeeds (k + n) h.
Proof.
  intros Hs. unfold malloc_succeeds. now rewrite Hs, lookup_drop.
Qed.

(** A call of [malloc] takes the next pointer of the supply; a buffer it
    returns is live. *)
Lemma malloc_cases size h :
  (malloc_succeeds 0 h = false
   /\ fst (malloc size h) = NULL
   /\ live (snd (malloc size h)) = live h)
  \/ (malloc_succeeds 0 h = true
      /\ fst (malloc size h) <> NULL
      /\ live (snd (malloc size h))
         = (fst (malloc size h), size) :: live h
      /\ supply h !! 0%nat = Some (fst (malloc size h))).
Proof.
  unfold malloc, malloc_succeeds.
  destruct (supply h) as [|a rest]; simpl; [left; done|].
  destruct (Z.eqb_spec a NULL) as [-> | Hne]; simpl; [left | right]; done.
Qed.

Lemma malloc_heap size h :
  supply (snd (malloc size h)) = drop 1 (supply h)
  /\ bad_free (snd (malloc size h)) = bad_free h.
Proof.
  unfold malloc. destruct (supply h) as [|a rest] eqn:E; simpl;
    rewrite ?E; done.
Qed.

(** [free] of the buffer at the head of the live ones takes it away. *)
Lemma free_newest ptr size blocks h :
  ptr <> NULL -> live h = (ptr, size) :: blocks ->
  live (free ptr h) = blocks
  /\ supply (free ptr h) = supply h
  /\ bad_free (free ptr h) = bad_free h.
Proof.
  intros Hptr Hlive. unfold free.
  destruct (Z.eqb_spec ptr NULL) as [? | _]; [contradiction|].
  rewrite Hlive. simpl. rewrite Z.eqb_refl. simpl. done.
Qed.

(** The outcome of [pool_init_at] on arguments that pass line 22, for a
    table that [malloc] can be asked for. *)
Lemma pool_init_at_cases mem bs nb h :
  mem <> NULL -> bs <> 0 -> nb <> 0 ->
  nb * sizeof_ssize_t <= wrap (nb * sizeof_ssize_t) ->
  (malloc_succeeds 0 h && malloc_succeeds 1 h = false
   /\ exists h', pool_init_at mem bs nb h = (AtNull, h')
        /\ live h' = live h /\ bad_free h' = bad_free h)
  \/ (malloc_succeeds 0 h && malloc_succeeds 1 h = true
      /\ exists r h', pool_init_at mem bs nb h = (AtPool r, h')
           /\ self r <> NULL /\ table r <> NULL
           /\ contents r
              = {| memory := mem; block_size := bs; num_blocks := nb;
                   free_blocks := nb;
                   allocation_sizes := replicate (Z.to_nat nb) 0 |}
           /\ live h'
              = (table r, wrap (nb * sizeof_ssize_t))
                  :: (self r, sizeof_mem_pool) :: live h
           /\ supply h' = drop 2 (supply h)
           /\ bad_free h' = bad_free h).
Proof.
  intros Hmem Hbs Hnb Hfits.
  unfold pool_init_at, malloc_succeeds, malloc.
  destruct (Z.eqb_spec mem NULL); [contradiction|].
  destruct (Z.eqb_spec bs 0); [contradiction|].
  destruct (Z.eqb_spec nb 0); [contradiction|]. simpl orb. cbv iota.
  destruct (supply h) as [|a rest] eqn:Hsupply; simpl.
  { left. split; [reflexivity|]. exists h. done. }
  destruct (Z.eqb_spec a NULL) as [-> | Ha]; simpl.
  { left. split; [reflexivity|]. eexists. split; [reflexivity|].
    simpl. done. }
  destruct rest as [|b rest]; simpl.
  { left. split; [reflexivity|]. eexists. split; [reflexivity|].
    unfold free; simpl. destruct (Z.eqb_spec a NULL); [contradiction|].
    simpl. rewrite Z.eqb_refl. simpl. done. }
  destruct (Z.eqb_spec b NULL) as [-> | Hb]; simpl.
  { left. split; [reflexivity|]. eexists. split; [reflexivity|].
    unfold free; simpl. destruct (Z.eqb_spec a NULL); [contradiction|].
    simpl. rewrite Z.eqb_refl. simpl. done. }
  destruct (Z.ltb_spec (wrap (nb * sizeof_ssize_t)) (nb * sizeof_ssize_t));
    [lia|].
  right. split; [reflexivity|]. eexists. eexists. split; [reflexivity|].
  simpl. rewrite ?Hsupply. repeat split; assumption.
Qed.

Lemma pool_init_at_agrees mem bs nb h :
  forget (fst (pool_init_at mem bs nb h))
  = pool_init (malloc_succeeds 0 h) (malloc_succeeds 1 h) mem bs nb.
Proof.
  unfold pool_init_at, pool_init, malloc_succeeds, malloc.
  destruct ((mem =? NULL) || (bs =? 0) || (nb =? 0)); [reflexivity|].
  destruct (supply h) as [|a rest]; simpl; [reflexivity|].
  destruct (Z.eqb_spec a NULL) as [-> | Ha]; simpl; [reflexivity|].
  destruct rest as [|b rest]; simpl; [reflexivity|].
  destruct (Z.eqb_spec b NULL) as [-> | Hb]; simpl; [reflexivity|].
  destruct (_ <? _); reflexivity.
Qed.

(** X10.  [pool_init] with its two calls of [malloc] carried out on the
    heap comes to what [pool_init] comes to when told whether the next two
    calls of [malloc] succeed; and when it returns no pool it leaves the
    live buffers as they were: the control structure obtained before a
    failing table allocation is freed again. *)
Theorem pool_init_at_refines_and_cleans_up mem bs nb h :
  forget (fst (pool_init_at mem bs nb h))
  = pool_init (malloc_succeeds 0 h) (malloc_succeeds 1 h) mem bs nb
  /\ (fst (pool_init_at mem bs nb h) = AtNull ->
      live (snd (pool_init_at mem bs nb h)) = live h
      /\ bad_free (snd (pool_init_at mem bs nb h)) = bad_free h).
Proof.
  split; [apply pool_init_at_agrees|].
  unfold pool_init_at, malloc.
  destruct ((mem =? NULL) || (bs =? 0) || (nb =? 0)); [done|].
  destruct (supply h) as [|a rest]; simpl; [done|].
  destruct (Z.eqb_spec a NULL) as [-> | Ha]; simpl; [done|].
  assert (Hfree : forall s b,
            live (free a {| live := (a, sizeof_mem_pool) :: live h;
                            supply := s; bad_free := b |}) = live h
            /\ bad_free (free a {| live := (a, sizeof_mem_pool) :: live h;
                                   supply := s; bad_free := b |}) = b).
  { intros s b.
    destruct (free_newest a sizeof_mem_pool (live h)
                {| live := (a, sizeof_mem_pool) :: live h;
                   supply := s; bad_free := b |} Ha eq_refl)
      as (? & _ & ?). done. }
  destruct rest as [|b rest]; simpl; [intros _; apply Hfree|].
  destruct (Z.eqb_spec b NULL) as [-> | Hb]; simpl; [intros _; apply Hfree|].
  destruct (_ <? _); discriminate.
Qed.

Lemma destroy_after_init r h blocks :
  self r <> NULL -> table r <> NULL ->
  live h = (table r, wrap (num_blocks (contents r) * sizeof_ssize_t))
             :: (self r, sizeof_mem_pool) :: blocks ->
  live (pool_destroy (Some r) h) = blocks
  /\ supply (pool_destroy (Some r) h) = supply h
  /\ bad_free (pool_destroy (Some r) h) = bad_free h.
Proof.
  intros Hs Ht Hlive. unfold pool_destroy.
  destruct (free_newest _ _ _ h Ht Hlive) as (Hl1 & Hs1 & Hb1).
  destruct (free_newest _ _ _ (free (table r) h) Hs Hl1) as (Hl2 & Hs2 & Hb2).
  rewrite Hl2, Hs2, Hb2, Hs1, Hb1. done.
Qed.

(** X11.  [pool_destroy] of the pool a successful [pool_init] made frees
    the table and the control structure and nothing else: the live buffers
    are those from before [pool_init], the caller's memory among them if
    it was one, and no pointer was freed that is not a live buffer. *)
Theorem pool_destroy_undoes_pool_init mem bs nb h r :
  fst (pool_init_at mem bs nb h) = AtPool r ->
  live (pool_destroy (Some r) (snd (pool_init_at mem bs nb h))) = live h
  /\ bad_free (pool_destroy (Some r) (snd (pool_init_at mem bs nb h)))
     = bad_free h.
Proof.
  unfold pool_init_at, malloc.
  destruct ((mem =? NULL) || (bs =? 0) || (nb =? 0)); [discriminate|].
  destruct (supply h) as [|a rest]; simpl; [discriminate|].
  destruct (Z.eqb_spec a NULL) as [-> | Ha]; simpl; [discriminate|].
  destruct rest as [|b rest]; simpl; [discriminate|].
  destruct (Z.eqb_spec b NULL) as [-> | Hb]; simpl; [discriminate|].
  destruct (_ <? _); [discriminate|]. simpl. intros [= <-].
  set (r0 := {| self := a; table := b; contents := _ |}).
  set (h' := {| live := _ :: _ :: live h; supply := rest;
                bad_free := bad_free h |}).
  change (live (pool_destroy (Some r0) h') = live h
          /\ bad_free (pool_destroy (Some r0) h') = bad_free h).
  destruct (destroy_after_init r0 h' (live h)) as (Hl & _ & Hb');
    [exact Ha | exact Hb | reflexivity |].
  split; [exact Hl | exact Hb'].
Qed.

End Heap.

(** * The demonstration program *)

Section Main.

Lemma pool_init_succeeds mem bs nb :
  mem <> NULL -> bs <> 0 -> nb <> 0 ->
  nb * sizeof_ssize_t <= wrap (nb * sizeof_ssize_t) ->
  pool_init true true mem bs nb
  = InitPool {| memory := mem; block_size := bs; num_blocks := nb;
                free_blocks := nb;
                allocation_sizes := replicate (Z.to_nat nb) 0 |}.
Proof.
  intros Hmem Hbs Hnb Hfits. unfold pool_init.
  destruct (Z.eqb_spec mem NULL); [contradiction|].
  destruct (Z.eqb_spec bs 0); [contradiction|].
  destruct (Z.eqb_spec nb 0); [contradiction|]. simpl.
  destruct (Z.ltb_spec (wrap (nb * sizeof_ssize_t)) (nb * sizeof_ssize_t));
    [lia | reflexivity].
Qed.

(** A fresh pool serves a request that passes the capacity test and needs
    no more blocks than it has at the base of its memory. *)
Lemma fresh_alloc_base pool_malloc table_malloc mem bs nb p size :
  is_size mem -> is_size bs -> is_size nb -> is_size size ->
  pool_init pool_malloc table_malloc mem bs nb = InitPool p ->
  0 < size <= wrap (bs * nb) ->
  num_blocks_needed p size <= nb ->
  fst (pool_alloc (Some p) size) = mem.
Proof.
  intros Hmem Hbs Hnbs Hsize Hinit Hpass Hneed.
  destruct (pool_init_inv _ _ _ _ _ _ Hmem Hbs Hnbs Hinit) as [Hshape Hinv].
  destruct (pool_init_shape _ _ _ _ _ _ Hmem Hbs Hnbs Hinit)
    as (Hp & _ & _ & _ & _).
  assert (Hall : forall i, entry (allocation_sizes p) i = 0)
    by (intros i; rewrite Hp; apply entry_replicate).
  assert (Hfields : memory p = mem /\ block_size p = bs
                    /\ num_blocks p = nb /\ free_blocks p = nb)
    by (rewrite Hp; repeat split).
  destruct Hfields as (Hfm & Hfb & Hfn & Hff).
  pose proof (num_blocks_needed_is_size p Hshape size) as Hneeded.
  destruct (pool_alloc_cases p Hshape Hinv size Hsize)
    as [[_ [H0 | [Hover | [_ Hnone]]]] | (r & _ & Hr & _ & _ & Hmin & Hres)].
  - lia.
  - rewrite Hfb, Hff in Hover. lia.
  - exfalso. apply (Hnone 0); [lia | rewrite Hfn; lia |].
    split; [|intros k _]; apply Hall.
  - assert (Hr0 : r = 0).
    { destruct (Z.eq_dec r 0) as [E | E]; [exact E|].
      exfalso. apply (Hmin 0); [lia|]. split; [|intros k _]; apply Hall. }
    subst r. rewrite Hres. simpl fst.
    change (0 * block_size p) with 0. change (wrap 0) with 0.
    rewrite Z.add_0_r, Hfm. now apply wrap_small.
Qed.

Lemma demo_request_served mem size :
  is_size mem -> mem <> NULL -> 0 < size <= 320 ->
  fst (pool_alloc
         (Some {| memory := mem; block_size := 1; num_blocks := 320;
                  free_blocks := 320;
                  allocation_sizes := replicate (Z.to_nat 320) 0 |}) size)
  = mem.
Proof.
  intros Hmem Hnn Hsize.
  apply (fresh_alloc_base true true mem 1 320); try assumption;
    try (unfold is_size, size_modulus; lia).
  - apply pool_init_succeeds; try lia. vm_compute. discriminate.
  - unfold num_blocks_needed. simpl block_size.
    rewrite wrap_small by (unfold is_size, size_modulus; lia).
    rewrite Z.div_1_r. lia.
Qed.

(** The three ways through [main]. *)
Lemma main_cases memory h :
  is_size memory -> memory <> NULL -> Forall is_size (supply h) ->
  exists h',
    live h' = live h /\ bad_free h' = bad_free h
    /\ ((malloc_succeeds 0 h && malloc_succeeds 1 h = false
         /\ main memory h = Some (-1, [FailedFirst], h'))
        \/ (malloc_succeeds 0 h && malloc_succeeds 1 h = true
            /\ malloc_succeeds 2 h && malloc_succeeds 3 h
               && malloc_succeeds 4 h = false
            /\ main memory h
               = Some (-1, [AllocatedBlock1 memory; FailedSecond], h'))
        \/ (malloc_succeeds 0 h && malloc_succeeds 1 h = true
            /\ malloc_succeeds 2 h && malloc_succeeds 3 h
               && malloc_succeeds 4 h = true
            /\ exists memory2,
                 supply h !! 2%nat = Some memory2
                 /\ main memory h
                    = Some (0, [AllocatedBlock1 memory;
                                AllocatedBlock2 memory2], h'))).
Proof.
  intros Hmem Hnn Hptrs. unfold main.
  assert (Hfits : 320 * sizeof_ssize_t <= wrap (320 * sizeof_ssize_t))
    by (vm_compute; discriminate).
  destruct (pool_init_at_cases memory 1 320 h Hnn ltac:(lia) ltac:(lia) Hfits)
    as [[Hok (h1 & E1 & Hl1 & Hb1)]
       | [Hok (r & h1 & E1 & Hs & Ht & Hc & Hl1 & Hsup1 & Hb1)]].
  { rewrite E1. exists h1. split; [exact Hl1|]. split; [exact Hb1|].
    left. split; [exact Hok | reflexivity]. }
  rewrite E1. cbv beta iota.
  assert (Hblock1 : fst (pool_alloc (Some (contents r)) 64) = memory)
    by (rewrite Hc; apply demo_request_served; try assumption; lia).
  destruct (pool_alloc (Some (contents r)) 64) as [block1 st].
  simpl in Hblock1. subst block1.
  destruct (destroy_after_init r h1 (live h) Hs Ht) as (Hl2 & Hsup2 & Hb2).
  { rewrite Hl1, Hc. reflexivity. }
  set (h2 := pool_destroy (Some r) h1) in *.
  assert (Hoks : forall n, malloc_succeeds n h2 = malloc_succeeds (2 + n) h)
    by (intros n; apply malloc_succeeds_drop; now rewrite Hsup2).
  destruct (malloc_heap (wrap (1 * 320)) h2) as [Hsup3 Hb3].
  assert (Hlook : forall a, supply h2 !! 0%nat = Some a ->
                            supply h !! 2%nat = Some a)
    by (intros a; rewrite Hsup2, Hsup1, lookup_drop; trivial).
  destruct (malloc_cases (wrap (1 * 320)) h2)
    as [(Hm2 & Hnull & Hl3) | (Hm2 & Hnn2 & Hl3 & Hsome)];
    destruct (malloc (wrap (1 * 320)) h2) as [memory2 h3];
    simpl fst in *; simpl snd in *.
  - (* the buffer for the second pool is refused *)
    subst memory2. exists h3.
    split; [now rewrite Hl3|]. split; [now rewrite Hb3, Hb2|].
    right; left. split; [exact Hok|].
    assert (H2 : malloc_succeeds 2 h = false)
      by (rewrite <- Hm2; symmetry; apply (Hoks 0%nat)).
    rewrite H2. split; reflexivity.
  - assert (H2 : malloc_succeeds 2 h = true)
      by (rewrite <- Hm2; symmetry; apply (Hoks 0%nat)).
    assert (Hoks3 : forall n,
              malloc_succeeds n h3 = malloc_succeeds (3 + n) h).
    { intros n. rewrite (malloc_succeeds_drop n 1 h2 h3 Hsup3).
      rewrite Hoks. f_equal. }
    assert (Hm2s : is_size memory2).
    { apply Hlook in Hsome.
      exact (proj1 (Forall_lookup _ _) Hptrs _ _ Hsome). }
    destruct (pool_init_at_cases memory2 1 320 h3 Hnn2
                ltac:(lia) ltac:(lia) Hfits)
      as [[Hok2 (h4 & E2 & Hl4 & Hb4)]
         | [Hok2 (r2 & h4 & E2 & Hs2 & Ht2 & Hc2 & Hl4 & Hsup4 & Hb4)]].
    + (* the second pool cannot be made *)
      rewrite E2.
      destruct (free_newest memory2 (wrap (1 * 320)) (live h2) h4 Hnn2)
        as (Hl5 & _ & Hb5); [now rewrite Hl4, Hl3|].
      exists (free memory2 h4).
      split; [now rewrite Hl5|].
      split; [now rewrite Hb5, Hb4, Hb3, Hb2|].
      right; left. split; [exact Hok|].
      rewrite !Hoks3 in Hok2. simpl Nat.add in Hok2.
      rewrite H2. split; [exact Hok2 | reflexivity].
    + (* both pools are made *)
      rewrite E2. cbv beta iota.
      assert (Hblock2 : fst (pool_alloc (Some (contents r2)) 96) = memory2)
        by (rewrite Hc2; apply demo_request_served; try assumption; lia).
      destruct (pool_alloc (Some (contents r2)) 96) as [block2 st2].
      simpl in Hblock2. subst block2.
      destruct (destroy_after_init r2 h4 (live h3) Hs2 Ht2)
        as (Hl5 & _ & Hb5).
      { rewrite Hl4, Hc2. reflexivity. }
      destruct (free_newest memory2 (wrap (1 * 320)) (live h2)
                  (pool_destroy (Some r2) h4) Hnn2)
        as (Hl6 & _ & Hb6); [now rewrite Hl5, Hl3|].
      exists (free memory2 (pool_destroy (Some r2) h4)).
      split; [now rewrite Hl6|].
      split; [now rewrite Hb6, Hb5, Hb4, Hb3, Hb2|].
      right; right. split; [exact Hok|].
      rewrite !Hoks3 in Hok2. simpl Nat.add in Hok2.
      rewrite H2. split; [exact Hok2|].
      exists memory2. split; [now apply Hlook | reflexivity].
Qed.

End Main.

Section MainResults.

Lemma five_mallocs h :
  (forall n, (n < 5)%nat -> malloc_succeeds n h = true)
  <-> malloc_succeeds 0 h && malloc_succeeds 1 h = true
      /\ malloc_succeeds 2 h && malloc_succeeds 3 h && malloc_succeeds 4 h
         = true.
Proof.
  split.
  - intros Hall.
    rewrite (Hall 0%nat), (Hall 1%nat), (Hall 2%nat), (Hall 3%nat),
      (Hall 4%nat) by lia.
    split; reflexivity.
  - intros [H01 H234] n Hn.
    apply andb_prop in H01. destruct H01 as [H0 H1].
    apply andb_prop in H234. destruct H234 as [H23 H4].
    apply andb_prop in H23. destruct H23 as [H2 H3].
    do 5 (destruct n as [|n]; [assumption|]). lia.
Qed.

(** X12.  [main] returns 0 when all five calls of [malloc] it can make
    succeed -- the control structure and the table of each pool and the
    buffer of the second -- and -1 when one of them fails. *)
Theorem main_exit_code memory h :
  is_size memory -> memory <> NULL -> Forall is_size (supply h) ->
  exists out h',
    (main memory h = Some (0, out, h')
     /\ forall n, (n < 5)%nat -> malloc_succeeds n h = true)
    \/ (main memory h = Some (-1, out, h')
        /\ exists n, (n < 5)%nat /\ malloc_succeeds n h = false).
Proof.
  intros Hmem Hnn Hptrs.
  destruct (main_cases memory h Hmem Hnn Hptrs)
    as (h' & _ & _ & [[Hok Hrun] | [(Hok & Hok2 & Hrun)
                                   | (Hok & Hok2 & m2 & _ & Hrun)]]).
  - exists [FailedFirst], h'. right. split; [exact Hrun|].
    apply andb_false_iff in Hok. destruct Hok as [H | H];
      [exists 0%nat | exists 1%nat]; split; trivial; lia.
  - exists [AllocatedBlock1 memory; FailedSecond], h'.
    right. split; [exact Hrun|].
    apply andb_false_iff in Hok2. destruct Hok2 as [H | H];
      [apply andb_false_iff in H; destruct H as [H | H];
       [exists 2%nat | exists 3%nat]
      | exists 4%nat]; split; trivial; lia.
  - exists [AllocatedBlock1 memory; AllocatedBlock2 m2], h'.
    left. split; [exact Hrun|]. now apply five_mallocs.
Qed.

(** X13.  Whatever calls of [malloc] fail, [main] returns with the live
    buffers of the heap as it found them -- every buffer it obtained is
    freed, once -- and without having passed [free] a pointer that is no
    live buffer; it never runs a zeroing loop over the end of a table. *)
Theorem main_frees_everything memory h :
  is_size memory -> memory <> NULL -> Forall is_size (supply h) ->
  exists code out h',
    main memory h = Some (code, out, h')
    /\ live h' = live h /\ bad_free h' = bad_free h.
Proof.
  intros Hmem Hnn Hptrs.
  destruct (main_cases memory h Hmem Hnn Hptrs)
    as (h' & Hl & Hb & [[_ Hrun] | [(_ & _ & Hrun)
                                   | (_ & _ & m2 & _ & Hrun)]]);
    do 2 eexists; exists h'; (split; [exact Hrun | split; assumption]).
Qed.

(** X14.  When the five calls of [malloc] succeed, [main] prints the
    address of its array for the first block and the address of the
    buffer [malloc] returned for the second: each pool serves its first
    request at the base of its memory. *)
Theorem main_prints_base_addresses memory h :
  is_size memory -> memory <> NULL -> Forall is_size (supply h) ->
  (forall n, (n < 5)%nat -> malloc_succeeds n h = true) ->
  exists memory2 h',
    supply h !! 2%nat = Some memory2
    /\ main memory h
       = Some (0, [AllocatedBlock1 memory; AllocatedBlock2 memory2], h').
Proof.
  intros Hmem Hnn Hptrs Hall. apply five_mallocs in Hall.
  destruct Hall as [H01 H234].
  destruct (main_cases memory h Hmem Hnn Hptrs)
    as (h' & _ & _ & [[Hok _] | [(_ & Hok2 & _)
                                | (_ & _ & m2 & Hlook & Hrun)]]).
  - congruence.
  - congruence.
  - exists m2, h'. split; assumption.
Qed.


End MainResults.

(** * The further results at work on the scenarios *)

Section MoreInstances.

Lemma pool_free_undoes_pool_alloc_witness :
  pool_free (snd (pool_alloc (Some frag_pool) 40))
    (fst (pool_alloc (Some frag_pool) 40))
  = Some frag_pool.
Proof.
  apply (pool_free_undoes_pool_alloc frag_pool 40 frag_pool_valid).
  - apply small_is_size. lia.
  - vm_compute. discriminate.
Defined.

Lemma pool_free_releases_witness :
  exists p',
    pool_free (Some frag_pool) (memory frag_pool + 2 * block_size frag_pool)
    = Some p'
    /\ (forall k, 2 <= k < 2 + 3 -> entry (allocation_sizes p') k = 0)
    /\ (forall k, 0 <= k -> ~ 2 <= k < 2 + 3 ->
          entry (allocation_sizes p') k
          = entry (allocation_sizes frag_pool) k)
    /\ free_blocks p' = free_blocks frag_pool + 3.
Proof.
  apply (pool_free_releases frag_pool 2 3 frag_pool_valid).
  - simpl. lia.
  - reflexivity.
  - lia.
Defined.

Lemma pool_alloc_inside_region_witness :
  memory frag_pool <= fst (pool_alloc (Some frag_pool) 40)
  /\ fst (pool_alloc (Some frag_pool) 40) + 40
     <= memory frag_pool + block_size frag_pool * num_blocks frag_pool.
Proof.
  apply (pool_alloc_inside_region frag_pool 40 frag_pool_valid).
  - apply small_is_size. lia.
  - vm_compute. discriminate.
Defined.

Lemma allocated_bytes_were_free_witness :
  0 <= (4180 - memory frag_pool) / block_size frag_pool
    < num_blocks frag_pool
  /\ entry (allocation_sizes frag_pool)
       ((4180 - memory frag_pool) / block_size frag_pool) = 0
  /\ entry (allocation_sizes (frag_state 2 [0; 0; 3; -1; -1; 3; -1; -1]))
       ((4180 - memory frag_pool) / block_size frag_pool) <> 0.
Proof.
  apply (allocated_bytes_were_free frag_pool 40 4176
           (frag_state 2 [0; 0; 3; -1; -1; 3; -1; -1]) 4180
           frag_pool_valid).
  - apply small_is_size. lia.
  - unfold size_modulus. simpl. lia.
  - vm_compute. reflexivity.
  - unfold NULL. lia.
  - lia.
Defined.

Lemma consecutive_allocations_disjoint_witness :
  4096 + 32 <= 4176 \/ 4176 + 48 <= 4096.
Proof.
  apply (consecutive_allocations_disjoint frag_pool
           32 4096 (frag_state 3 [2; -1; 3; -1; -1; 0; 0; 0])
           48 4176 (frag_state 0 [2; -1; 3; -1; -1; 3; -1; -1])
           frag_pool_valid).
  - apply small_is_size. lia.
  - apply small_is_size. lia.
  - unfold size_modulus. simpl. lia.
  - unfold size_modulus. simpl. lia.
  - vm_compute. reflexivity.
  - unfold NULL. lia.
  - vm_compute. reflexivity.
  - unfold NULL. lia.
Defined.


Lemma reachable_blocks_accounted_witness :
  free_blocks frag_pool + sum_heads (allocation_sizes frag_pool)
  = num_blocks frag_pool.
Proof.
  apply (reachable_blocks_accounted frag_pool). exact frag_pool_reachable.
Defined.

Lemma reachable_continuations_owned_witness :
  exists i, 0 <= i < 3
            /\ 0 < entry (allocation_sizes frag_pool) i
            /\ 3 < i + entry (allocation_sizes frag_pool) i.
Proof.
  apply (reachable_continuations_owned frag_pool 3).
  - exact frag_pool_reachable.
  - simpl. lia.
  - reflexivity.
Defined.

Lemma pool_init_at_refines_and_cleans_up_witness :
  live (snd (pool_init_at 4096 16 8 (fresh_heap [1000; 0]))) = []
  /\ bad_free (snd (pool_init_at 4096 16 8 (fresh_heap [1000; 0]))) = false.
Proof.
  apply (proj2 (pool_init_at_refines_and_cleans_up
                  4096 16 8 (fresh_heap [1000; 0]))).
  reflexivity.
Defined.

Lemma pool_destroy_undoes_pool_init_witness :
  live (pool_destroy
          (Some {| self := 1000; table := 2000;
                   contents := frag_state 8 [0; 0; 0; 0; 0; 0; 0; 0] |})
          (snd (pool_init_at 4096 16 8 (fresh_heap [1000; 2000]))))
  = []
  /\ bad_free (pool_destroy
                 (Some {| self := 1000; table := 2000;
                          contents :=
                            frag_state 8 [0; 0; 0; 0; 0; 0; 0; 0] |})
                 (snd (pool_init_at 4096 16 8 (fresh_heap [1000; 2000]))))
     = false.
Proof.
  apply (pool_destroy_undoes_pool_init 4096 16 8
           (fresh_heap [1000; 2000])).
  reflexivity.
Defined.

Lemma demo_heap_pointers :
  Forall is_size (supply (fresh_heap [1000; 2000; 3000; 4000; 5000])).
Proof. simpl. repeat constructor; unfold size_modulus; lia. Qed.

Lemma main_exit_code_witness :
  exists out h',
    (main 8192 (fresh_heap [1000; 2000; 3000; 4000; 5000])
     = Some (0, out, h')
     /\ forall n, (n < 5)%nat ->
          malloc_succeeds n (fresh_heap [1000; 2000; 3000; 4000; 5000])
          = true)
    \/ (main 8192 (fresh_heap [1000; 2000; 3000; 4000; 5000])
        = Some (-1, out, h')
        /\ exists n, (n < 5)%nat
             /\ malloc_succeeds n
                  (fresh_heap [1000; 2000; 3000; 4000; 5000]) = false).
Proof.
  apply (main_exit_code 8192 (fresh_heap [1000; 2000; 3000; 4000; 5000])).
  - apply small_is_size. lia.
  - unfold NULL. lia.
  - exact demo_heap_pointers.
Defined.

Lemma main_frees_everything_witness :
  exists code out h',
    main 8192 (fresh_heap [1000; 2000; 3000; 0]) = Some (code, out, h')
    /\ live h' = [] /\ bad_free h' = false.
Proof.
  apply (main_frees_everything 8192 (fresh_heap [1000; 2000; 3000; 0])).
  - apply small_is_size. lia.
  - unfold NULL. lia.
  - simpl. repeat constructor; unfold size_modulus; lia.
Defined.

Lemma main_prints_base_addresses_witness :
  exists memory2 h',
    supply (fresh_heap [1000; 2000; 3000; 4000; 5000]) !! 2%nat
    = Some memory2
    /\ main 8192 (fresh_heap [1000; 2000; 3000; 4000; 5000])
       = Some (0, [AllocatedBlock1 8192; AllocatedBlock2 memory2], h').
Proof.
  apply (main_prints_base_addresses 8192
           (fresh_heap [1000; 2000; 3000; 4000; 5000])).
  - apply small_is_size. lia.
  - unfold NULL. lia.
  - exact demo_heap_pointers.
  - intros n Hn. do 5 (destruct n as [|n]; [reflexivity|]). lia.
Defined.

Lemma valid_pool_kept_witness :
  valid_pool (frag_state 2 [0; 0; 3; -1; -1; 3; -1; -1])
  /\ valid_pool (frag_state 8 [0; 0; 0; 0; 0; 0; 0; 0]).
Proof.
  destruct (valid_pool_kept frag_pool 40 4128 frag_pool_valid) as [Ha Hf].
  - apply small_is_size. lia.
  - split.
    + apply (Ha 4176). vm_compute. reflexivity.
    + apply Hf. vm_compute. reflexivity.
Defined.


(** The run of [main] when every call of [malloc] succeeds, and when the
    table of the second pool is refused. *)
Example main_runs :
  main 8192 (fresh_heap [1000; 2000; 3000; 4000; 5000])
  = Some (0, [AllocatedBlock1 8192; AllocatedBlock2 3000], fresh_heap [])
  /\ main 8192 (fresh_heap [1000; 2000; 3000; 4000; 0])
     = Some (-1, [AllocatedBlock1 8192; FailedSecond], fresh_heap []).
Proof. split; vm_compute; reflexivity. Qed.

End MoreInstances.
